(** * extract_html.py: Google-Docs archive to cleaned, paginated HTML

    A shallow embedding of [src/extract_html.py] and the properties of its
    specification.

    The program works on three kinds of library objects:
    - a zip archive ([zipfile.ZipFile]): an ordered list of named entries;
    - a parsed document ([bs4]): a tree of tags and strings, each tag with a
      name, an attribute dictionary and a list of contents;
    - a parsed stylesheet ([tinycss]): an ordered list of rules.

    The document tree is mutated in place by the passes of the program.  The
    embedding is a pure tree: a pass is a function from the tree before to the
    tree after, an element of the tree is known by its place in it, and the
    queries of the library ([find], [findAll], [findChildren]) enumerate the
    descendants of a tag in document order, that is, in pre-order over the
    [contents] lists.

    The file has three parts: the program, the notions its properties are
    stated with, and the properties, those of the specification first and
    further ones of the code after them. *)

From stdpp Require Import gmap strings pretty list fin_maps.
From Stdlib Require Import Ascii Permutation.
From Equations Require Import Equations.

Open Scope string_scope.
Open Scope list_scope.

(** * The program *)

(** ** The document tree *)

(** An attribute value of [bs4]: a string, or a list of strings for the
    multi-valued attributes ([class] among them). *)
Inductive attr_value :=
| AStr (s : string)
| AList (l : list string).

#[global] Instance attr_value_eq_dec : EqDecision attr_value.
Proof. solve_decision. Defined.

Local Unset Elimination Schemes.

(** A page element: a [NavigableString] or a [Tag] with its [name], [attrs]
    and [contents]. *)
Inductive node :=
| Text (s : string)
| Tag (name : string) (attrs : gmap string attr_value) (contents : list node).

Local Set Elimination Schemes.

Section node_ind.
  Variable P : node → Prop.
  Hypothesis P_text : ∀ s, P (Text s).
  Hypothesis P_tag : ∀ nm a cs, Forall P cs → P (Tag nm a cs).

Fixpoint node_ind (n : node) : P n :=
  match n with
  | Text s => P_text s
  | Tag nm a cs =>
      P_tag nm a cs
        ((fix go (l : list node) : Forall P l :=
            match l with
            | [] => Forall_nil_2 P
            | c :: l' => Forall_cons_2 P c l' (node_ind c) (go l')
            end) cs)
  end.
End node_ind.

(** [child.name]: [None] for a string, the tag name for a tag. *)
Definition name_of (n : node) : option string :=
  match n with
  | Text _ => None
  | Tag nm _ _ => Some nm
  end.

(** [tag.contents]. *)
Definition contents_of (n : node) : list node :=
  match n with
  | Text _ => []
  | Tag _ _ cs => cs
  end.

(** The element reached from [n] by following child indices. *)
Fixpoint node_at (p : list nat) (n : node) : option node :=
  match p with
  | [] => Some n
  | i :: p' =>
      match contents_of n !! i with
      | Some c => node_at p' c
      | None => None
      end
  end.

(** An element of the tree is known by its place, the child indices that
    lead to it from the root; the queries of the library return places, and
    its mutations act at a place. *)

(** [soup.findAll(tag)] over the contents [cs] of a tag, [i] being the index
    of the first of them; [rec] is the same query below a child. *)
Definition findAll_in (rec : node → list (list nat)) (tag : string)
  : list node → nat → list (list nat) :=
  fix go cs i :=
    match cs with
    | [] => []
    | c :: rest =>
        (if decide (name_of c = Some tag) then [[i]] else [])
        ++ ((i ::.) <$> rec c) ++ go rest (S i)
    end.

(** [soup.findAll(tag)]: the descendants of [soup] named [tag], in document
    order. *)
Fixpoint findAll (tag : string) (soup : node) : list (list nat) :=
  match soup with
  | Text _ => []
  | Tag _ _ cs => findAll_in (findAll tag) tag cs 0
  end.

(** [soup.find(tag)]: the first descendant named [tag], as its place and the
    element there; [None] when there is none. *)
Definition find (tag : string) (soup : node) : option (list nat * node) :=
  p ← head (findAll tag soup); x ← node_at p soup; Some (p, x).

(** [x.extract()] for the element [x] at [p]: the tree without it. *)
Fixpoint extract (p : list nat) (root : node) : node :=
  match p, root with
  | [i], Tag nm a cs => Tag nm a (delete i cs)
  | i :: p', Tag nm a cs => Tag nm a (alter (extract p') i cs)
  | _, _ => root
  end.

(** [t.attrs = f(t.attrs)] for the tag [t] at [p]. *)
Fixpoint set_attrs (f : gmap string attr_value → gmap string attr_value)
    (p : list nat) (root : node) : node :=
  match p, root with
  | [], Tag nm a cs => Tag nm (f a) cs
  | i :: p', Tag nm a cs => Tag nm a (alter (set_attrs f p') i cs)
  | _, _ => root
  end.

(** The same for a mutation that may raise: [None] stands for the exception,
    which ends the loop the mutation is in. *)
Definition try_set_attrs
    (g : gmap string attr_value → option (gmap string attr_value))
    (acc : option node) (t : list nat) : option node :=
  soup ← acc;
  match node_at t soup with
  | Some (Tag _ attrs _) =>
      attrs' ← g attrs; Some (set_attrs (λ _, attrs') t soup)
  | _ => Some soup
  end.

(** ** Attribute stripping *)

(** [strip_attr]: builds a new dictionary from every key but [attr_name]. *)
Definition strip_attr (attrs : gmap string attr_value) (attr_name : string)
  : gmap string attr_value :=
  map_fold (λ k v new_attrs,
              if decide (k = attr_name) then new_attrs else <[k:=v]> new_attrs)
           ∅ attrs.

(** [strip_soup_tags_attr]. *)
Definition strip_soup_tags_attr (soup : node) (tag attr_name : string) : node :=
  let tags := findAll tag soup in
  foldl (λ soup t, set_attrs (λ attrs, strip_attr attrs attr_name) t soup)
        soup tags.

Definition basics : list string :=
  ["title"; "subtitle"; "h1"; "h2"; "h3"; "h4"; "h5"; "h6"; "a"; "p"].

(** [strip_class_from_basics]. *)
Definition strip_class_from_basics (soup : node) : node :=
  foldl (λ soup b,
           let tags := findAll b soup in
           foldl (λ soup tag, set_attrs (λ attrs, strip_attr attrs "class") tag soup)
                 soup tags)
        soup basics.

(** ** The stylesheet and the style resolver *)

(** A declaration of a rule: its [name] and the CSS text ([as_css()]) of each
    token of its [value]. *)
Record declaration := Declaration {
  d_name : string;
  d_value : list string
}.

(** A rule: the CSS text of its selector and its declarations, in order. *)
Record rule := Rule {
  selector : string;
  declarations : list declaration
}.

Record stylesheet := Stylesheet { rules : list rule }.

(** [d.name + ":" + " ".join([x.as_css() for x in d.value])]. *)
Definition declaration_css (d : declaration) : string :=
  d_name d +:+ ":" +:+ String.concat " " (d_value d).

(** [get_inline_style]: the loop keeps the last rule whose selector is [tag];
    [None] stands for the [AttributeError] raised by [rule.declarations] when
    no rule was kept. *)
Definition get_inline_style (tinycss_sheet : stylesheet) (tag : string)
  : option string :=
  let rule := foldl (λ rule r, if decide (selector r = tag) then Some r else rule)
                    None (rules tinycss_sheet) in
  match rule with
  | None => None
  | Some r => Some (String.concat ";" (declaration_css <$> declarations r))
  end.

(** ** Class to inline style *)

(** Truth value of an attribute value in a Python condition. *)
Definition truthy (v : attr_value) : bool :=
  match v with
  | AStr s => bool_decide (s ≠ EmptyString)
  | AList l => bool_decide (l ≠ [])
  end.

(** [for c in class_]: the elements of a list, the characters of a string. *)
Definition iter_value (v : attr_value) : list string :=
  match v with
  | AStr s => (λ c, String c EmptyString) <$> String.list_ascii_of_string s
  | AList l => l
  end.

(** [replace_tag_with_inline_css]: the new attributes of [tag] from its
    attributes [attrs]; [None] when a class has no rule in [styles]. *)
Definition replace_tag_with_inline_css (styles : stylesheet)
    (attrs : gmap string attr_value) : option (gmap string attr_value) :=
  match attrs !! "class" with
  | Some class_ =>
      if truthy class_ then
        new_styles ← mapM (λ c, get_inline_style styles ("." +:+ c))
                          (iter_value class_);
        Some (<["style" := AStr (String.concat ";" new_styles)]>
                (strip_attr (strip_attr attrs "style") "class"))
      else Some attrs
  | None => Some attrs
  end.

Definition use_inline : list string := ["span"].

(** [change_class_to_inlines]. *)
Definition change_class_to_inlines (soup : node) (styles : stylesheet)
  : option node :=
  foldl (λ acc b,
           soup ← acc;
           let tags := findAll b soup in
           foldl (try_set_attrs (replace_tag_with_inline_css styles))
                 (Some soup) tags)
        (Some soup) use_inline.

(** ** Merging consecutive tags *)

(** [combine_tags] edits the [contents] lists of the tags directly; the tree
    is what these lists hold. *)

(** [BeautifulSoup("<br/>")]: a document object holding one [br] tag. *)
Definition br_soup : node := Tag "[document]" ∅ [Tag "br" ∅ []].

(** [last_child.contents.append(..)] and [last_child.contents += ..]. *)
Definition append_contents (n : node) (extra : list node) : node :=
  match n with
  | Text s => Text s
  | Tag nm a cs => Tag nm a (cs ++ extra)
  end.

(** [child.clear()]. *)
Definition clear (n : node) : node :=
  match n with
  | Text s => Text s
  | Tag nm a _ => Tag nm a []
  end.

(** The children already visited, with the object [last_child] refers to held
    apart while it can still be appended to: [Some (last_child, after)] stands
    for the list [last_child :: after]. *)
Definition plug (focus : option (node * list node)) : list node :=
  match focus with
  | None => []
  | Some (last_child, after) => last_child :: after
  end.

(** The [for child in parent.children] loop of [combine_tags]; [rec] is the
    recursive call on an [hr] child.  The children visited so far are
    [before ++ plug focus]. *)
Definition combine_loop (rec : node → node) (tag : string)
  : list node → list node → option (node * list node) → list node :=
  fix go children before focus :=
    match children with
    | [] => before ++ plug focus
    | child :: rest =>
        if decide (name_of child = Some "hr") then
          match focus with
          | None => go rest (before ++ [rec child]) None
          | Some (last_child, after) =>
              go rest before (Some (last_child, after ++ [rec child]))
          end
        else if decide (name_of child ≠ Some tag) then
          go rest (before ++ plug focus) (Some (child, []))
        else
          match focus with
          | None => go rest before (Some (child, []))
          | Some (last_child, after) =>
              if decide (name_of last_child ≠ Some tag) then
                go rest (before ++ plug focus) (Some (child, []))
              else
                go rest before
                   (Some (append_contents last_child
                            (br_soup :: contents_of child),
                          after ++ [clear child]))
          end
    end.

(** The tags of a forest, all levels: for a tag [t],
    [len(t.findChildren())] is [count_tags (contents_of t)]. *)
Fixpoint count_tags_node (n : node) : nat :=
  match n with
  | Text _ => 0
  | Tag _ _ cs => S (sum_list (count_tags_node <$> cs))
  end.

Definition count_tags (cs : list node) : nat :=
  sum_list (count_tags_node <$> cs).

(** One turn of the closing loop of [combine_tags], for the tag at [p]. *)
Definition clear_childless_at (parent : node) (p : list nat) : node :=
  match node_at p parent with
  | Some t =>
      if decide (count_tags (contents_of t) = 0) then extract p parent
      else parent
  | None => parent
  end.

(** [combine_tags]: the loop over the children, then the closing loop over
    [must_clear]. *)
Fixpoint combine_tags (tag : string) (parent : node) : node :=
  match parent with
  | Text s => Text s
  | Tag nm a cs =>
      let parent := Tag nm a (combine_loop (combine_tags tag) tag cs [] None) in
      let must_clear := reverse (findAll tag parent) in
      foldl clear_childless_at parent must_clear
  end.

(** ** Splitting into pages *)

(** The number of elements of a tree: the measure of [split_pages]. *)
Fixpoint node_size (n : node) : nat :=
  match n with
  | Text _ => 1
  | Tag _ _ cs => S (sum_list (node_size <$> cs))
  end.

Lemma node_size_pos n : 0 < node_size n.
Proof. destruct n; simpl; lia. Qed.

Lemma findAll_in_cons rec tag cs i :
  Forall (λ p, p ≠ []) (findAll_in rec tag cs i).
Proof.
  revert i. induction cs as [|c rest IH]; intros i; simpl; [done|].
  rewrite !Forall_app. split_and!; [|by apply Forall_fmap, Forall_true|done].
  case_decide; by repeat constructor.
Qed.

Lemma findAll_cons tag n : Forall (λ p, p ≠ []) (findAll tag n).
Proof. destruct n; simpl; [done|]. apply findAll_in_cons. Qed.

Lemma node_at_size p n x :
  p ≠ [] → node_at p n = Some x → node_size x < node_size n.
Proof.
  revert n. induction p as [|i p IH]; intros n Hp Hat; [done|].
  destruct n as [s|nm a cs]; simpl in Hat; [done|].
  destruct (cs !! i) as [c|] eqn:Hc; [|done].
  assert (node_size c ≤ sum_list (node_size <$> cs))%nat as Hle.
  { clear -Hc. revert i Hc. induction cs as [|c' cs IH]; intros i Hc; [done|].
    destruct i as [|i]; simpl in Hc; csimpl.
    - injection Hc as ->. lia.
    - specialize (IH _ Hc). lia. }
  destruct p as [|j p].
  - simpl in Hat. injection Hat as <-. simpl. lia.
  - assert (node_size x < node_size c) by (by apply IH). simpl. lia.
Qed.

(** The element found is below the root, hence smaller than the tree. *)
Lemma find_smaller tag parent p x :
  find tag parent = Some (p, x) → node_size x < node_size parent.
Proof.
  unfold find. pose proof (findAll_cons tag parent) as Hall.
  destruct (findAll tag parent) as [|q qs]; simpl; [done|].
  apply Forall_cons in Hall as [Hq _].
  destruct (node_at q parent) as [y|] eqn:Hat; simpl; [|done].
  intros [= <- <-]. by eapply node_at_size.
Qed.

(** [split_pages]. *)
Equations? split_pages (parent : node) : list node by wf (node_size parent) lt :=
  split_pages parent with Logic.inspect (find "hr" parent) => {
    | exist _ (Some (pair p hr)) _ => extract p parent :: split_pages hr;
    | exist _ None _ => [parent] }.
Proof. by eapply find_smaller. Qed.

(** ** The content of a page *)




(** The number of tags named [tag] in an element and below it. *)
Fixpoint count_named_node (tag : string) (n : node) : nat :=
  match n with
  | Text _ => 0
  | Tag nm _ cs =>
      (if decide (nm = tag) then 1 else 0)
      + sum_list (count_named_node tag <$> cs)
  end.

(** [len(parent.findAll(tag))]. *)
Definition count_named (tag : string) (parent : node) : nat :=
  sum_list (count_named_node tag <$> contents_of parent).

(** ** The archive *)

Definition bytes := list Init.Byte.byte.

Record entry := Entry { e_name : string; e_data : bytes }.

(** An opened [ZipFile]: its entries in the order of the archive. *)
Abbreviation archive := (list entry).

(** [zf.namelist()]. *)
Definition namelist (zf : archive) : list string := e_name <$> zf.

(** [zf.read(name)]: the library keeps one entry per name, the last one;
    [None] for its [KeyError]. *)
Definition read (zf : archive) (name : string) : option bytes :=
  e_data <$> last (filter (λ e, e_name e = name) zf).

(** [str.upper()], on ASCII names. *)
Definition upper_ascii (c : Ascii.ascii) : Ascii.ascii :=
  let n := Ascii.nat_of_ascii c in
  if bool_decide (97 ≤ n ≤ 122)%nat then Ascii.ascii_of_nat (n - 32) else c.

Fixpoint upper (s : string) : string :=
  match s with
  | EmptyString => EmptyString
  | String c s' => String (upper_ascii c) (upper s')
  end.

(** [str.endswith(suffix)]. *)
Definition endswith (s suffix : string) : bool :=
  bool_decide (String.list_ascii_of_string suffix
                 `suffix_of` String.list_ascii_of_string s).

(** The loop of [extract_html] over the names: every match overwrites
    [html_file_name]. *)
Definition html_file_name (files : list string) : option string :=
  foldl (λ html_file_name f,
           if endswith (upper f) ".HTML" then Some f else html_file_name)
        None files.

(** ** The pipeline and its library calls *)

(** A Python exception: those the program's own expressions raise, and
    whatever a library call raises. *)
Inductive exn :=
| AttributeError
| IndexError
| KeyError
| Raised (what : string).

(** What is written to a file: text (mode ["w"]) or bytes (mode ["wb"]). *)
Inductive file_data :=
| TextData (s : string)
| BytesData (b : bytes).

(** The calls into the libraries and the operating system, indexed by the
    type of what they return. *)
Inductive ext : Type → Type :=
| ZipFile (file_name : string) : ext archive
| BeautifulSoup (markup : option bytes) : ext node
| parse_stylesheet (css_text : node) : ext stylesheet
| os_mkdir (path : string) : ext unit
| os_path_exists (path : string) : ext bool
| os_makedirs (path : string) : ext unit
| write_file (path mode : string) (data : file_data) : ext unit.

(** A program: it returns, raises, or makes a call and continues with the
    value returned. *)
Inductive prog (A : Type) : Type :=
| Ret (a : A)
| Raise (e : exn)
| Call {X : Type} (op : ext X) (k : X → prog A).

Arguments Ret {A} a.
Arguments Raise {A} e.
Arguments Call {A X} op k.

Fixpoint prog_bind_def {A B} (f : A → prog B) (m : prog A) : prog B :=
  match m with
  | Ret a => f a
  | Raise e => Raise e
  | Call op k => Call op (λ x, prog_bind_def f (k x))
  end.

#[global] Instance prog_ret : MRet prog := λ A a, Ret a.
#[global] Instance prog_bind : MBind prog := λ A B f m, prog_bind_def f m.

Definition call {X} (op : ext X) : prog X := Call op Ret.

(** [for x in l: body x]. *)
Fixpoint for_each {A} (l : list A) (body : A → prog unit) : prog unit :=
  match l with
  | [] => Ret ()
  | x :: l' => body x ≫= λ _ : unit, for_each l' body
  end.

(** A value that may be [None], used where an attribute of it is taken. *)
Definition attr_of {A} (o : option A) : prog A :=
  match o with
  | Some a => Ret a
  | None => Raise AttributeError
  end.

(** [extract_html]. *)
Definition extract_html (file_name : string) : prog (option bytes) :=
  zf ← call (ZipFile file_name);
  match html_file_name (namelist zf) with
  | Some f =>
      match read zf f with
      | Some html_doc => Ret (Some html_doc)
      | None => Raise KeyError
      end
  | None => Ret None
  end.

(** [get_html_soup]. *)
Definition get_html_soup (file_name : string) : prog node :=
  html_doc ← extract_html file_name;
  call (BeautifulSoup html_doc).

(** [get_body_soup]: [None] when the document has no [body]. *)
Definition get_body_soup (file_name : string) : prog (option node) :=
  soup ← get_html_soup file_name;
  Ret (snd <$> find "body" soup).

(** [get_css_text]. *)
Definition get_css_text (file_name : string) : prog node :=
  soup ← get_html_soup file_name;
  style ← attr_of (snd <$> find "style" soup);
  match contents_of style with
  | css_text :: _ => Ret css_text
  | [] => Raise IndexError
  end.

(** [get_tinycss_sheet]. *)
Definition get_tinycss_sheet (file_name : string) : prog stylesheet :=
  css_text ← get_css_text file_name;
  call (parse_stylesheet css_text).

(** [fn.split("\\")[-1]]: what follows the last backslash. *)
Fixpoint last_segment (s cur : string) : string :=
  match s with
  | EmptyString => cur
  | String c s' =>
      if decide (c = "\"%char) then last_segment s' EmptyString
      else last_segment s' (cur +:+ String c EmptyString)
  end.

(** [s.replace(".zip", e)] with [e] the empty string. *)
Fixpoint remove_zip (s : string) : string :=
  match s with
  | String "." (String "z" (String "i" (String "p" rest))) => remove_zip rest
  | String c rest => String c (remove_zip rest)
  | EmptyString => EmptyString
  end.

Section pipeline.
  (** Pure functions of the libraries. *)
  Variable os_path_join : string → string → string.
  Variable os_path_split : string → string * string.
  Variable prettify : node → string.

(** [extract_pngs]. *)
Definition extract_pngs (file_name output_dir : string) : prog unit :=
  zf ← call (ZipFile file_name);
  for_each (namelist zf) (λ f,
    if endswith (upper f) ".PNG" then
      let output_name := os_path_join output_dir f in
      let img_dir := (os_path_split output_name).1 in
      call (os_path_exists img_dir) ≫= λ found : bool,
      (if found then Ret () else call (os_makedirs img_dir)) ≫= λ _ : unit,
      match read zf f with
      | Some data => call (write_file output_name "wb" (BytesData data))
      | None => Raise KeyError
      end
    else Ret ()).

(** [unpack_zip_to_html]. *)
Definition unpack_zip_to_html (file_name output_dir : string) : prog unit :=
  let fn := file_name in
  let new_dir :=
    os_path_join output_dir (remove_zip (last_segment fn EmptyString)) in
  call (os_mkdir new_dir) ≫= λ _ : unit,
  body ← get_body_soup fn;
  sheet ← get_tinycss_sheet fn;
  body ← attr_of body;
  let body := strip_class_from_basics body in
  body ← attr_of (change_class_to_inlines body sheet);
  let body := combine_tags "h6" body in
  let pages := split_pages body in
  for_each (imap (λ i page, (i, page)) pages) (λ '(i, page),
    let f := os_path_join new_dir ("page_" +:+ pretty i +:+ ".html") in
    call (write_file f "w" (TextData (prettify page)))) ≫= λ _ : unit,
  extract_pngs file_name new_dir.
End pipeline.

(** ** Running a program *)

(** A call that was made. *)
Inductive event := Event (X : Type) (op : ext X).

Arguments Event {X} op.

(** The libraries and the operating system: what each call returns or
    raises, and the state it leaves. *)
Definition handler (W : Type) : Type := ∀ X, ext X → W → (exn + X) * W.

Record outcome (A W : Type) := Outcome {
  result : exn + A;
  world : W;
  trace : list event
}.

Arguments Outcome {A W} result world trace.
Arguments result {A W} o.
Arguments world {A W} o.
Arguments trace {A W} o.

(** [run h p w]: the outcome of [p] started in [w], an exception ending the
    run, and the calls made on the way. *)
Fixpoint run {W A} (h : handler W) (p : prog A) (w : W) : outcome A W :=
  match p with
  | Ret a => Outcome (inr a) w []
  | Raise e => Outcome (inl e) w []
  | Call op k =>
      match h _ op w with
      | (inl e, w') => Outcome (inl e) w' [Event op]
      | (inr x, w') =>
          let o := run h (k x) w' in
          Outcome (result o) (world o) (Event op :: trace o)
      end
  end.

(** * Notions used in the statements *)

(** ** The loops over elements, read by structure *)

(** An element after the mutation [f] of its attributes and of those of all
    tags below it; [f] is given the name of the tag. *)
Fixpoint update_all (f : string → gmap string attr_value → gmap string attr_value)
    (n : node) : node :=
  match n with
  | Text s => Text s
  | Tag nm a cs => Tag nm (f nm a) (map (update_all f) cs)
  end.

(** The tree after the mutation of all tags below the root: what a loop
    [for t in soup.findAll(..)] mutating [t] amounts to. *)
Definition update_descendants
    (f : string → gmap string attr_value → gmap string attr_value)
    (soup : node) : node :=
  match soup with
  | Text s => Text s
  | Tag nm a cs => Tag nm a (map (update_all f) cs)
  end.

(** The same for a mutation that may raise. *)
Fixpoint try_update_all
    (f : string → gmap string attr_value → option (gmap string attr_value))
    (n : node) : option node :=
  match n with
  | Text s => Some (Text s)
  | Tag nm a cs =>
      a' ← f nm a;
      cs' ← mapM (try_update_all f) cs;
      Some (Tag nm a' cs')
  end.

Definition try_update_descendants
    (f : string → gmap string attr_value → option (gmap string attr_value))
    (soup : node) : option node :=
  match soup with
  | Text s => Some (Text s)
  | Tag nm a cs => cs' ← mapM (try_update_all f) cs; Some (Tag nm a cs')
  end.

(** An element with other attributes. *)
Definition with_attrs (a : gmap string attr_value) (n : node) : node :=
  match n with
  | Text s => Text s
  | Tag nm _ cs => Tag nm a cs
  end.

(** What the closing loop of [combine_tags] leaves of an element: [[]] when
    it is extracted, the element after the loop otherwise.  In reverse
    document order every tag is visited after all tags below it, so a tag is
    tested on its contents as the loop has left them. *)
Fixpoint clear_childless (tag : string) (n : node) : list node :=
  match n with
  | Text s => [Text s]
  | Tag nm a cs =>
      let cs' := cs ≫= clear_childless tag in
      if decide (nm = tag ∧ count_tags cs' = 0) then [] else [Tag nm a cs']
  end.

(** A tree after the closing loop of [combine_tags]. *)
Definition cleaned (tag : string) (n : node) : node :=
  match n with
  | Text s => Text s
  | Tag nm a cs => Tag nm a (cs ≫= clear_childless tag)
  end.

(** [x = parent.find(tag)] followed by [x.extract()], read by structure,
    over the contents [cs] of a tag: the first element named [tag] in
    document order, and [cs] with that element taken out.  [rec] does the
    same below a child. *)
Definition find_extract_in (rec : node → option (node * node)) (tag : string)
  : list node → option (node * list node) :=
  fix go cs :=
    match cs with
    | [] => None
    | c :: rest =>
        if decide (name_of c = Some tag) then Some (c, rest)
        else match rec c with
             | Some (x, c') => Some (x, c' :: rest)
             | None =>
                 match go rest with
                 | Some (x, rest') => Some (x, c :: rest')
                 | None => None
                 end
             end
    end.

(** The first descendant of [parent] named [tag], with [parent] as the
    extraction leaves it; [None] when [find] returns [None]. *)
Fixpoint find_extract (tag : string) (parent : node) : option (node * node) :=
  match parent with
  | Text _ => None
  | Tag nm a cs =>
      match find_extract_in (find_extract tag) tag cs with
      | Some (x, cs') => Some (x, Tag nm a cs')
      | None => None
      end
  end.

(** ** Other notions *)

(** One sweep deleting [class] on the tags named in [tags]. *)
Definition strip_basic (tags : list string) (nm : string)
    (a : gmap string attr_value) : gmap string attr_value :=
  if decide (nm ∈ tags) then delete "class" a else a.

(** The classes an element carries: what [for c in class_] runs over. *)
Definition classes_of (a : gmap string attr_value) : list string :=
  match a !! "class" with
  | Some class_ => iter_value class_
  | None => []
  end.

(** [extracted tag cs x cs']: [x], named [tag], sits somewhere in the forest
    [cs], and [cs'] is [cs] without it. *)
Inductive extracted (tag : string) : list node → node → list node → Prop :=
| extracted_here c rest :
    name_of c = Some tag → extracted tag (c :: rest) c rest
| extracted_below nm a cs x cs' rest :
    nm ≠ tag → extracted tag cs x cs' →
    extracted tag (Tag nm a cs :: rest) x (Tag nm a cs' :: rest)
| extracted_later c rest x rest' :
    count_named_node tag c = 0 → extracted tag rest x rest' →
    extracted tag (c :: rest) x (c :: rest').


(** Whether [last_child] is a tag named [tag]. *)
Definition focus_flag (tag : string) (focus : option (node * list node))
  : bool :=
  match focus with
  | Some (last_child, _) => bool_decide (name_of last_child = Some tag)
  | None => false
  end.


(** [stable rec tag b l]: a run of the loop over [l], started when
    [last_child] is a tag named [tag] or not according to [b], merges nothing
    and changes no [hr] child. *)
Fixpoint stable (rec : node → node) (tag : string) (b : bool) (l : list node)
  : Prop :=
  match l with
  | [] => True
  | c :: rest =>
      if decide (name_of c = Some "hr") then rec c = c ∧ stable rec tag b rest
      else if decide (name_of c ≠ Some tag) then stable rec tag false rest
      else b = false ∧ stable rec tag true rest
  end.




(** An attribute in the markup of a tag. *)
Definition attr_markup (kv : string * attr_value) : string :=
  let value := match kv.2 with
               | AStr s => s
               | AList l => String.concat " " l
               end in
  let quote := String (Ascii.ascii_of_nat 34) EmptyString in
  " " +:+ kv.1 +:+ "=" +:+ quote +:+ value +:+ quote.

(** The markup of an element, as the library writes it ([decode]): a
    document object shows its contents only, a [br] or [hr] without contents
    is written as a single tag.  Used to read a resulting tree as HTML. *)
Fixpoint decode (n : node) : string :=
  match n with
  | Text s => s
  | Tag nm a cs =>
      let inner := String.concat EmptyString (decode <$> cs) in
      let attrs := String.concat EmptyString (attr_markup <$> map_to_list a) in
      if decide (nm = "[document]") then inner
      else
        match cs with
        | [] =>
            if decide (nm ∈ ["br"; "hr"]) then "<" +:+ nm +:+ attrs +:+ "/>"
            else "<" +:+ nm +:+ attrs +:+ "></" +:+ nm +:+ ">"
        | _ => "<" +:+ nm +:+ attrs +:+ ">" +:+ inner +:+ "</" +:+ nm +:+ ">"
        end
  end.

(** A name ends in [.html], in any mix of upper and lower case. *)
Definition html_suffix (name : string) : Prop :=
  ∃ stem c1 c2 c3 c4,
    name = stem +:+ String "." (String c1 (String c2 (String c3
                      (String c4 EmptyString))))
    ∧ c1 ∈ ["h"; "H"]%char ∧ c2 ∈ ["t"; "T"]%char
    ∧ c3 ∈ ["m"; "M"]%char ∧ c4 ∈ ["l"; "L"]%char.

(** A stand-in for the libraries, for running the program on an example:
    every file name opens the archive [zf], the parser raises on [None], and
    nothing else fails. *)
Definition serve (zf : archive) : handler unit :=
  λ X op w,
    match op in ext X return (exn + X) * unit with
    | ZipFile _ => (inr zf, w)
    | BeautifulSoup None => (inl (Raised "TypeError"), w)
    | BeautifulSoup (Some _) => (inr (Tag "[document]" ∅ []), w)
    | parse_stylesheet _ => (inr (Stylesheet []), w)
    | os_mkdir _ => (inr (), w)
    | os_path_exists _ => (inr true, w)
    | os_makedirs _ => (inr (), w)
    | write_file _ _ _ => (inr (), w)
    end.

(** ** The files a run writes *)

(** What a call writes: path, mode and data, for the calls that write. *)
Definition written (ev : event) : option (string * string * file_data) :=
  match ev with
  | Event op =>
      match op with
      | write_file path mode data => Some (path, mode, data)
      | _ => None
      end
  end.

Definition writes (tr : list event) : list (string * string * file_data) :=
  omap written tr.

(** Libraries that do not fail on a document: every file name opens the
    archive [zf], the parser gives [soup] for the bytes handed to it (and
    raises on [None]), the style parser gives [sheet], [dirs] tells which
    directories exist, directories are made and files written. *)
Definition library (zf : archive) (soup : node) (sheet : stylesheet)
    (dirs : string → bool) : handler unit :=
  λ X op w,
    match op in ext X return (exn + X) * unit with
    | ZipFile _ => (inr zf, w)
    | BeautifulSoup None => (inl (Raised "TypeError"), w)
    | BeautifulSoup (Some _) => (inr soup, w)
    | parse_stylesheet _ => (inr sheet, w)
    | os_mkdir _ => (inr (), w)
    | os_path_exists path => (inr (dirs path), w)
    | os_makedirs _ => (inr (), w)
    | write_file _ _ _ => (inr (), w)
    end.

(** [yields h m a ws]: run with the libraries [h], the program [m] returns
    [a], and the files written on the way are [ws]. *)
Definition yields {A} (h : handler unit) (m : prog A) (a : A)
    (ws : list (string * string * file_data)) : Prop :=
  result (run h m ()) = inr a ∧ writes (trace (run h m ())) = ws.

(** [raises h m e]: run with the libraries [h], the program [m] ends with
    the exception [e], and no file has been written. *)
Definition raises {A} (h : handler unit) (m : prog A) (e : exn) : Prop :=
  result (run h m ()) = inl e ∧ writes (trace (run h m ())) = [].

(** * Properties *)

(** ** The loops over elements, by place and by structure *)

Lemma set_attrs_below f nm a pre c post i ps :
  length pre = i →
  foldl (λ soup t, set_attrs f t soup) (Tag nm a (pre ++ c :: post))
        ((i ::.) <$> ps)
  = Tag nm a (pre ++ foldl (λ soup t, set_attrs f t soup) c ps :: post).
Proof.
  intros <-. revert c. induction ps as [|p ps IH]; intros c; simpl; [done|].
  rewrite alter_app_r_alt by done. rewrite Nat.sub_diag. simpl. apply IH.
Qed.

Lemma set_attrs_sweep_in f tag nm a pre cs :
  Forall (λ c, ∀ a', foldl (λ soup t, set_attrs f t soup) (with_attrs a' c)
                           (findAll tag c)
                     = update_descendants
                         (λ nm a, if decide (nm = tag) then f a else a)
                         (with_attrs a' c)) cs →
  foldl (λ soup t, set_attrs f t soup) (Tag nm a (pre ++ cs))
        (findAll_in (findAll tag) tag cs (length pre))
  = Tag nm a (pre ++ map (update_all (λ nm a, if decide (nm = tag)
                                              then f a else a)) cs).
Proof.
  intros Hcs. revert pre.
  induction Hcs as [|c rest Hc _ IH]; intros pre; [done|].
  cbn [findAll_in]. rewrite !foldl_app.
  destruct c as [s|cn ca ccs].
  - simpl. specialize (IH (pre ++ [Text s])).
    rewrite length_app, Nat.add_1_r, <- !app_assoc in IH. apply IH.
  - assert (foldl (λ soup t, set_attrs f t soup)
                  (Tag nm a (pre ++ Tag cn ca ccs :: rest))
                  (if decide (name_of (Tag cn ca ccs) = Some tag)
                   then [[length pre]] else [])
            = Tag nm a (pre ++ Tag cn (if decide (cn = tag) then f ca else ca)
                                   ccs :: rest)) as ->.
    { simpl. destruct (decide (Some cn = Some tag)) as [[= ->]|Hne].
      - rewrite decide_True by done. simpl.
        rewrite alter_app_r_alt by done. by rewrite Nat.sub_diag.
      - rewrite decide_False by congruence. done. }
    rewrite set_attrs_below by done.
    simpl in Hc. cbn [findAll]. rewrite Hc.
    specialize (IH (pre ++ [update_all (λ nm a, if decide (nm = tag)
                                                then f a else a)
                              (Tag cn ca ccs)])).
    rewrite length_app, Nat.add_1_r, <- !app_assoc in IH. apply IH.
Qed.

(** A loop mutating the attributes of the tags found by [findAll] is a sweep
    over the tree below the root. *)
Lemma set_attrs_sweep f tag soup :
  foldl (λ soup t, set_attrs f t soup) soup (findAll tag soup)
  = update_descendants (λ nm a, if decide (nm = tag) then f a else a) soup.
Proof.
  enough (∀ n a', foldl (λ soup t, set_attrs f t soup) (with_attrs a' n)
                        (findAll tag n)
                  = update_descendants
                      (λ nm a, if decide (nm = tag) then f a else a)
                      (with_attrs a' n)) as H.
  { destruct soup as [s|nm a cs]; [done|]. apply (H (Tag nm a cs) a). }
  intros n. induction n as [s|nm a cs IH] using node_ind; intros a'; [done|].
  simpl. by apply (set_attrs_sweep_in _ tag nm a' []).
Qed.

Lemma strip_soup_tags_attr_sweep soup tag attr_name :
  strip_soup_tags_attr soup tag attr_name
  = update_descendants
      (λ nm a, if decide (nm = tag) then strip_attr a attr_name else a) soup.
Proof. apply set_attrs_sweep. Qed.

Lemma try_set_attrs_None g ps : foldl (try_set_attrs g) None ps = None.
Proof. induction ps as [|p ps IH]; simpl; done. Qed.

Lemma try_set_attrs_below g nm a pre c post i ps :
  length pre = i →
  foldl (try_set_attrs g) (Some (Tag nm a (pre ++ c :: post))) ((i ::.) <$> ps)
  = c' ← foldl (try_set_attrs g) (Some c) ps;
    Some (Tag nm a (pre ++ c' :: post)).
Proof.
  intros <-. revert c. induction ps as [|p ps IH]; intros c; [done|].
  cbn [fmap list_fmap foldl]. unfold try_set_attrs at 2 4.
  cbn [mbind option_bind node_at contents_of].
  rewrite list_lookup_middle by done.
  destruct (node_at p c) as [[s|tn ta tcs]|]; [apply IH| |apply IH].
  destruct (g ta) as [a1|]; cbn [mbind option_bind].
  - cbn [set_attrs]. rewrite alter_app_r_alt by done.
    rewrite Nat.sub_diag. simpl. apply IH.
  - by rewrite !try_set_attrs_None.
Qed.

Lemma try_set_attrs_sweep_in g tag nm a pre cs :
  Forall (λ c, ∀ a', foldl (try_set_attrs g) (Some (with_attrs a' c))
                           (findAll tag c)
                     = try_update_descendants
                         (λ nm a, if decide (nm = tag) then g a else Some a)
                         (with_attrs a' c)) cs →
  foldl (try_set_attrs g) (Some (Tag nm a (pre ++ cs)))
        (findAll_in (findAll tag) tag cs (length pre))
  = cs' ← mapM (try_update_all
                  (λ nm a, if decide (nm = tag) then g a else Some a)) cs;
    Some (Tag nm a (pre ++ cs')).
Proof.
  intros Hcs. revert pre.
  induction Hcs as [|c rest Hc _ IH]; intros pre; [done|].
  cbn [findAll_in]. rewrite !foldl_app.
  destruct c as [s|cn ca ccs].
  - simpl. specialize (IH (pre ++ [Text s])).
    rewrite length_app, Nat.add_1_r, <- !app_assoc in IH. cbn [app] in IH.
    rewrite IH. destruct (mapM _ rest); simpl; [by rewrite <- app_assoc|done].
  - cbn [mapM try_update_all].
    assert (foldl (try_set_attrs g)
                  (Some (Tag nm a (pre ++ Tag cn ca ccs :: rest)))
                  (if decide (name_of (Tag cn ca ccs) = Some tag)
                   then [[length pre]] else [])
            = a1 ← (if decide (cn = tag) then g ca else Some ca);
              Some (Tag nm a (pre ++ Tag cn a1 ccs :: rest))) as ->.
    { simpl. destruct (decide (Some cn = Some tag)) as [[= ->]|Hne].
      - rewrite decide_True by done. simpl. unfold try_set_attrs. simpl.
        rewrite list_lookup_middle by done.
        destruct (g ca) as [a1|]; simpl; [|done].
        rewrite alter_app_r_alt by done. by rewrite Nat.sub_diag.
      - rewrite decide_False by congruence. done. }
    destruct (if decide (cn = tag) then g ca else Some ca) as [a1|];
      cbn [mbind option_bind]; [|by rewrite !try_set_attrs_None].
    rewrite try_set_attrs_below by done.
    specialize (Hc a1). simpl in Hc. cbn [findAll]. rewrite Hc.
    destruct (mapM _ ccs) as [ccs'|]; cbn [mbind option_bind];
      [|by rewrite try_set_attrs_None].
    specialize (IH (pre ++ [Tag cn a1 ccs'])).
    rewrite length_app, Nat.add_1_r, <- !app_assoc in IH. cbn [app] in IH.
    rewrite IH. destruct (mapM _ rest); simpl; [by rewrite <- app_assoc|done].
Qed.

(** The same for a loop that may raise. *)
Lemma try_set_attrs_sweep g tag soup :
  foldl (try_set_attrs g) (Some soup) (findAll tag soup)
  = try_update_descendants
      (λ nm a, if decide (nm = tag) then g a else Some a) soup.
Proof.
  enough (∀ n a', foldl (try_set_attrs g) (Some (with_attrs a' n))
                        (findAll tag n)
                  = try_update_descendants
                      (λ nm a, if decide (nm = tag) then g a else Some a)
                      (with_attrs a' n)) as H.
  { destruct soup as [s|nm a cs]; [done|]. apply (H (Tag nm a cs) a). }
  intros n. induction n as [s|nm a cs IH] using node_ind; intros a'; [done|].
  simpl. by apply (try_set_attrs_sweep_in g tag nm a' []).
Qed.

Lemma change_class_to_inlines_sweep soup styles :
  change_class_to_inlines soup styles
  = try_update_descendants
      (λ nm a, if decide (nm = "span")
               then replace_tag_with_inline_css styles a else Some a) soup.
Proof. apply try_set_attrs_sweep. Qed.

Lemma clear_childless_at_below nm a pre c post i p :
  length pre = i → p ≠ [] →
  clear_childless_at (Tag nm a (pre ++ c :: post)) (i :: p)
  = Tag nm a (pre ++ clear_childless_at c p :: post).
Proof.
  intros <- Hp. unfold clear_childless_at. cbn [node_at contents_of].
  rewrite list_lookup_middle by done.
  destruct p as [|j p]; [done|].
  destruct (node_at (j :: p) c) as [t|]; [|done].
  case_decide; [|done].
  cbn [extract]. f_equal. rewrite alter_app_r_alt by done.
  by rewrite Nat.sub_diag.
Qed.

Lemma closing_loop_below nm a pre c post i ps :
  length pre = i → Forall (λ p, p ≠ []) ps →
  foldl clear_childless_at (Tag nm a (pre ++ c :: post)) ((i ::.) <$> ps)
  = Tag nm a (pre ++ foldl clear_childless_at c ps :: post).
Proof.
  intros Hi Hps. revert c.
  induction Hps as [|p ps Hp _ IH]; intros c; simpl; [done|].
  rewrite clear_childless_at_below by done. apply IH.
Qed.

Lemma clear_childless_at_here nm a pre c post i :
  length pre = i →
  clear_childless_at (Tag nm a (pre ++ c :: post)) [i]
  = if decide (count_tags (contents_of c) = 0) then Tag nm a (pre ++ post)
    else Tag nm a (pre ++ c :: post).
Proof.
  intros <-. unfold clear_childless_at. cbn [node_at contents_of].
  rewrite list_lookup_middle by done.
  case_decide; [|done]. cbn [extract]. f_equal.
  rewrite delete_middle. done.
Qed.

Lemma closing_loop_in tag nm a pre cs :
  Forall (λ c, foldl clear_childless_at c (reverse (findAll tag c))
               = cleaned tag c) cs →
  foldl clear_childless_at (Tag nm a (pre ++ cs))
        (reverse (findAll_in (findAll tag) tag cs (length pre)))
  = Tag nm a (pre ++ (cs ≫= clear_childless tag)).
Proof.
  intros Hcs. revert pre.
  induction Hcs as [|c rest Hc _ IH]; intros pre; [done|].
  cbn [findAll_in]. rewrite !reverse_app, !foldl_app.
  replace (pre ++ c :: rest) with ((pre ++ [c]) ++ rest)
    by (by rewrite <- app_assoc).
  replace (S (length pre)) with (length (pre ++ [c]))
    by (rewrite length_app; simpl; lia).
  rewrite IH. rewrite <- app_assoc. simpl.
  rewrite <- fmap_reverse.
  rewrite closing_loop_below;
    [|done|apply Forall_reverse, findAll_cons].
  rewrite Hc. csimpl.
  destruct c as [s|cn ca ccs]; simpl.
  - done.
  - destruct (decide (Some cn = Some tag)) as [Heq|Hne].
    + injection Heq as ->. simpl.
      rewrite clear_childless_at_here by done. simpl.
      destruct (decide (count_tags (ccs ≫= clear_childless tag) = 0)).
      * by rewrite decide_True.
      * rewrite decide_False by tauto. done.
    + simpl. rewrite decide_False; [done|]. intros [-> _]. done.
Qed.

(** The closing loop of [combine_tags], over the tags found in reverse
    document order, visits every tag after all tags below it: it leaves the
    tree that [clear_childless] describes. *)
Lemma closing_loop_cleaned tag n :
  foldl clear_childless_at n (reverse (findAll tag n)) = cleaned tag n.
Proof.
  induction n as [s|nm a cs IH] using node_ind; [done|].
  simpl. by apply (closing_loop_in tag nm a []).
Qed.

Lemma combine_tags_eq tag nm a cs :
  combine_tags tag (Tag nm a cs)
  = Tag nm a (combine_loop (combine_tags tag) tag cs [] None
                ≫= clear_childless tag).
Proof. cbn [combine_tags]. apply closing_loop_cleaned. Qed.

Lemma find_extract_in_paths tag nm a pre cs :
  Forall (λ c, match head (findAll tag c) with
               | Some p => ∃ x, p ≠ [] ∧ node_at p c = Some x
                                ∧ find_extract tag c = Some (x, extract p c)
               | None => find_extract tag c = None
               end) cs →
  match head (findAll_in (findAll tag) tag cs (length pre)) with
  | Some p =>
      ∃ x cs', p ≠ [] ∧ node_at p (Tag nm a (pre ++ cs)) = Some x
               ∧ find_extract_in (find_extract tag) tag cs = Some (x, cs')
               ∧ extract p (Tag nm a (pre ++ cs)) = Tag nm a (pre ++ cs')
  | None => find_extract_in (find_extract tag) tag cs = None
  end.
Proof.
  intros Hcs. revert pre.
  induction Hcs as [|c rest Hc _ IH]; intros pre; [done|].
  cbn [findAll_in find_extract_in].
  destruct (decide (name_of c = Some tag)) as [Hn|Hn].
  - simpl. exists c, rest. split_and!; [done| |done|].
    + by rewrite list_lookup_middle.
    + by rewrite delete_middle.
  - simpl. destruct (findAll tag c) as [|p ps]; simpl in *.
    + rewrite Hc. specialize (IH (pre ++ [c])).
      rewrite length_app, Nat.add_1_r in IH.
      destruct (head (findAll_in (findAll tag) tag rest (S (length pre))))
        as [q|].
      * destruct IH as (x & cs' & Hq & Hat & -> & Hex).
        rewrite <- !app_assoc in *. simpl in *. by exists x, (c :: cs').
      * by rewrite IH.
    + destruct Hc as (x & Hp & Hat & ->).
      exists x, (extract p c :: rest). split_and!; [done| |done|].
      * by rewrite list_lookup_middle.
      * destruct p as [|j p]; [done|]. f_equal.
        rewrite alter_app_r_alt by done. by rewrite Nat.sub_diag.
Qed.

Lemma find_extract_paths tag n :
  match head (findAll tag n) with
  | Some p => ∃ x, p ≠ [] ∧ node_at p n = Some x
                   ∧ find_extract tag n = Some (x, extract p n)
  | None => find_extract tag n = None
  end.
Proof.
  induction n as [s|nm a cs IH] using node_ind; [done|].
  pose proof (find_extract_in_paths tag nm a [] cs IH) as H.
  simpl in *.
  destruct (head (findAll_in (findAll tag) tag cs 0)) as [p|].
  - destruct H as (x & cs' & Hp & Hat & -> & ->). by exists x.
  - by rewrite H.
Qed.

(** [find] followed by [extract] is [find_extract]. *)
Lemma find_extract_find tag n :
  find_extract tag n = (λ '(p, x), (x, extract p n)) <$> find tag n.
Proof.
  unfold find. pose proof (find_extract_paths tag n) as H.
  destruct (head (findAll tag n)) as [p|]; simpl; [|done].
  destruct H as (x & _ & -> & ->). done.
Qed.

(** ** Attribute stripping *)

Lemma strip_attr_delete (attrs : gmap string attr_value) attr_name :
  strip_attr attrs attr_name = delete attr_name attrs.
Proof.
  unfold strip_attr.
  induction attrs as [|k v m Hk Hfold IH] using map_first_key_ind.
  - by rewrite map_fold_empty, delete_empty.
  - rewrite map_fold_insert_first_key by done.
    rewrite IH. destruct (decide (k = attr_name)) as [->|Hne].
    + by rewrite delete_insert_eq.
    + by rewrite delete_insert_ne.
Qed.

Lemma update_all_ext f g n :
  (∀ nm a, f nm a = g nm a) → update_all f n = update_all g n.
Proof.
  intros Hfg. induction n as [s|nm a cs IH] using node_ind; simpl; [done|].
  rewrite Hfg. f_equal. apply map_ext_Forall, IH.
Qed.

Lemma update_all_compose f g n :
  update_all g (update_all f n) = update_all (λ nm a, g nm (f nm a)) n.
Proof.
  induction n as [s|nm a cs IH] using node_ind; simpl; [done|].
  f_equal. rewrite map_map. apply map_ext_Forall, IH.
Qed.

Lemma update_descendants_ext f g soup :
  (∀ nm a, f nm a = g nm a) →
  update_descendants f soup = update_descendants g soup.
Proof.
  intros Hfg. destruct soup as [s|nm a cs]; simpl; [done|].
  f_equal. apply map_ext. intros c. by apply update_all_ext.
Qed.

Lemma update_descendants_compose f g soup :
  update_descendants g (update_descendants f soup)
  = update_descendants (λ nm a, g nm (f nm a)) soup.
Proof.
  destruct soup as [s|nm a cs]; simpl; [done|].
  f_equal. rewrite map_map. apply map_ext. intros c. apply update_all_compose.
Qed.

(** An element below the root is found at the same place after a sweep, with
    its attributes mutated. *)
Lemma node_at_update_all f p n :
  node_at p (update_all f n) = update_all f <$> node_at p n.
Proof.
  revert n. induction p as [|i p IH]; intros n; [done|].
  destruct n as [s|nm a cs]; simpl; [done|].
  rewrite list_lookup_fmap. destruct (cs !! i) as [c|]; simpl; [apply IH|done].
Qed.

Lemma node_at_update_descendants f p soup :
  p ≠ [] →
  node_at p (update_descendants f soup) = update_all f <$> node_at p soup.
Proof.
  destruct p as [|i p]; [done|]. intros _.
  destruct soup as [s|nm a cs]; simpl; [done|].
  rewrite list_lookup_fmap.
  destruct (cs !! i) as [c|]; simpl; [apply node_at_update_all|done].
Qed.

(** The sweeps of [strip_class_from_basics] amount to one sweep. *)
Lemma strip_sweeps tags0 tags soup :
  foldl (λ s b, strip_soup_tags_attr s b "class")
        (update_descendants (strip_basic tags0) soup) tags
  = update_descendants (strip_basic (tags0 ++ tags)) soup.
Proof.
  revert tags0. induction tags as [|b tags IH]; intros tags0; simpl.
  - by rewrite app_nil_r.
  - rewrite strip_soup_tags_attr_sweep, update_descendants_compose.
    rewrite (update_descendants_ext _ (strip_basic (tags0 ++ [b]))).
    + rewrite IH. by rewrite <- app_assoc.
    + intros nm a. unfold strip_basic. rewrite strip_attr_delete.
      assert (nm ∈ tags0 ++ [b] ↔ nm ∈ tags0 ∨ nm = b) as Happ
        by (rewrite elem_of_app, list_elem_of_singleton; done).
      destruct (decide (nm ∈ tags0)), (decide (nm = b)),
        (decide (nm ∈ tags0 ++ [b])); try tauto.
      apply delete_delete_eq.
Qed.

Lemma update_descendants_id soup :
  update_descendants (strip_basic []) soup = soup.
Proof.
  destruct soup as [s|nm a cs]; simpl; [done|]. f_equal.
  induction cs as [|c cs IH]; simpl; [done|]. f_equal; [|done].
  clear IH. induction c as [s|nm' a' cs' IH] using node_ind; simpl; [done|].
  unfold strip_basic at 1. rewrite decide_False by set_solver. f_equal.
  induction IH as [|c cs'' Hc _ IH']; simpl; [done|]. by rewrite Hc, IH'.
Qed.

Lemma strip_class_from_basics_sweep soup :
  strip_class_from_basics soup = update_descendants (strip_basic basics) soup.
Proof.
  unfold strip_class_from_basics.
  rewrite <- (update_descendants_id soup) at 1. apply strip_sweeps.
Qed.

(** C7. The class-stripping pass removes the [class] attribute from every
    element (below the root it is given) whose tag is one of [title],
    [subtitle], [h1] to [h6], [a], [p], and leaves every other attribute of
    such an element as it was. *)
Theorem strip_class_from_basics_frame (soup : node) (p : list nat)
    (nm : string) (a : gmap string attr_value) (cs : list node) :
  p ≠ [] →
  node_at p soup = Some (Tag nm a cs) →
  nm ∈ ["title"; "subtitle"; "h1"; "h2"; "h3"; "h4"; "h5"; "h6"; "a"; "p"] →
  ∃ a' cs',
    node_at p (strip_class_from_basics soup) = Some (Tag nm a' cs')
    ∧ a' !! "class" = None
    ∧ ∀ k, k ≠ "class" → a' !! k = a !! k.
Proof.
  intros Hp Hat Hnm.
  rewrite strip_class_from_basics_sweep, node_at_update_descendants by done.
  rewrite Hat. simpl. eexists _, _. split; [done|].
  unfold strip_basic. rewrite decide_True by done.
  split; [apply lookup_delete_eq|].
  intros k Hk. by apply lookup_delete_ne.
Qed.

(** ** The style resolver *)

Lemma keep_last_no_match (tag : string) (acc : option rule) (l : list rule) :
  Forall (λ r, selector r ≠ tag) l →
  foldl (λ rule r, if decide (selector r = tag) then Some r else rule) acc l
  = acc.
Proof.
  intros H. revert acc. induction H as [|r l Hr _ IH]; intros acc; simpl;
    [done|].
  rewrite decide_False by done. apply IH.
Qed.

(** Without a rule for the selector the lookup fails. *)
Lemma get_inline_style_no_rule (sheet : stylesheet) (tag : string) :
  Forall (λ r, selector r ≠ tag) (rules sheet) →
  get_inline_style sheet tag = None.
Proof.
  intros H. unfold get_inline_style. by rewrite keep_last_no_match.
Qed.



(** ** Class to inline style *)

Lemma node_at_try_update_all f p n n' nm a cs :
  try_update_all f n = Some n' →
  node_at p n = Some (Tag nm a cs) →
  ∃ a' cs', f nm a = Some a' ∧ node_at p n' = Some (Tag nm a' cs')
            ∧ length cs' = length cs.
Proof.
  revert n n'. induction p as [|i p IH]; intros n n' Hn Hat.
  - simpl in Hat. injection Hat as ->. simpl in Hn.
    destruct (f nm a) as [a'|]; simpl in Hn; [|done].
    destruct (mapM (try_update_all f) cs) as [cs'|] eqn:Hcs; simpl in Hn;
      [|done].
    injection Hn as <-. exists a', cs'. split_and!; [done..|].
    apply mapM_Some in Hcs. symmetry. by eapply Forall2_length.
  - destruct n as [s|nm0 a0 cs0]; simpl in Hat; [done|].
    destruct (cs0 !! i) as [c|] eqn:Hc; [|done].
    simpl in Hn. destruct (f nm0 a0) as [a0'|]; simpl in Hn; [|done].
    destruct (mapM (try_update_all f) cs0) as [cs0'|] eqn:Hcs; simpl in Hn;
      [|done].
    injection Hn as <-. apply mapM_Some in Hcs.
    destruct (Forall2_lookup_l _ _ _ _ _ Hcs Hc) as (c' & Hc' & Hcc).
    destruct (IH _ _ Hcc Hat) as (a' & cs' & ? & ? & ?).
    exists a', cs'. split_and!; [done| |done]. simpl. by rewrite Hc'.
Qed.

Lemma node_at_try_update_descendants f p soup soup' nm a cs :
  p ≠ [] →
  try_update_descendants f soup = Some soup' →
  node_at p soup = Some (Tag nm a cs) →
  ∃ a' cs', f nm a = Some a' ∧ node_at p soup' = Some (Tag nm a' cs')
            ∧ length cs' = length cs.
Proof.
  destruct p as [|i p]; [done|]. intros _ Hs Hat.
  destruct soup as [s|nm0 a0 cs0]; simpl in Hat; [done|].
  destruct (cs0 !! i) as [c|] eqn:Hc; [|done].
  simpl in Hs.
  destruct (mapM (try_update_all f) cs0) as [cs0'|] eqn:Hcs; simpl in Hs;
    [|done].
  injection Hs as <-. apply mapM_Some in Hcs.
  destruct (Forall2_lookup_l _ _ _ _ _ Hcs Hc) as (c' & Hc' & Hcc).
  destruct (node_at_try_update_all _ _ _ _ _ _ _ Hcc Hat)
    as (a' & cs' & ? & ? & ?).
  exists a', cs'. split_and!; [done| |done]. simpl. by rewrite Hc'.
Qed.

Lemma truthy_iter_value v : truthy v = true ↔ iter_value v ≠ [].
Proof.
  destruct v as [s|l]; simpl; rewrite bool_decide_eq_true.
  - destruct s; simpl; naive_solver.
  - done.
Qed.

Lemma replace_tag_with_inline_css_no_class styles a :
  classes_of a = [] → replace_tag_with_inline_css styles a = Some a.
Proof.
  unfold classes_of, replace_tag_with_inline_css.
  destruct (a !! "class") as [v|]; [|done]. intros Hv.
  destruct (truthy v) eqn:Ht; [|done].
  apply truthy_iter_value in Ht. done.
Qed.

Lemma replace_tag_with_inline_css_class styles a a' :
  classes_of a ≠ [] →
  replace_tag_with_inline_css styles a = Some a' →
  ∃ new_styles,
    Forall2 (λ c s, get_inline_style styles ("." +:+ c) = Some s)
            (classes_of a) new_styles
    ∧ a' = <["style" := AStr (String.concat ";" new_styles)]>
             (delete "class" (delete "style" a)).
Proof.
  unfold classes_of, replace_tag_with_inline_css.
  destruct (a !! "class") as [v|]; [|done]. intros Hv.
  apply truthy_iter_value in Hv. rewrite Hv.
  destruct (mapM _ (iter_value v)) as [new_styles|] eqn:Hm; simpl; [|done].
  intros [= <-]. exists new_styles. split; [by apply mapM_Some|].
  by rewrite !strip_attr_delete.
Qed.

(** C6, as the code has it.  After a successful inline-ify pass, every [span]
    below the root that carried at least one class has no [class] attribute
    and has a [style] attribute: the resolved inline-style strings, one per
    class, joined by semicolons (an empty string when the rules of its
    classes declare nothing); its other attributes are as before.  A [span]
    without a class keeps its attributes unchanged. *)
Theorem change_class_to_inlines_spans (soup soup' : node) (styles : stylesheet)
    (p : list nat) (a : gmap string attr_value) (cs : list node) :
  change_class_to_inlines soup styles = Some soup' →
  p ≠ [] →
  node_at p soup = Some (Tag "span" a cs) →
  ∃ a' cs',
    node_at p soup' = Some (Tag "span" a' cs')
    ∧ length cs' = length cs
    ∧ (classes_of a = [] → a' = a)
    ∧ (classes_of a ≠ [] →
       ∃ new_styles,
         Forall2 (λ c s, get_inline_style styles ("." +:+ c) = Some s)
                 (classes_of a) new_styles
         ∧ a' !! "class" = None
         ∧ a' !! "style" = Some (AStr (String.concat ";" new_styles))
         ∧ ∀ k, k ≠ "class" → k ≠ "style" → a' !! k = a !! k).
Proof.
  intros Hpass Hp Hat. rewrite change_class_to_inlines_sweep in Hpass.
  destruct (node_at_try_update_descendants _ _ _ _ _ _ _ Hp Hpass Hat)
    as (a' & cs' & Hf & Hat' & Hlen).
  rewrite decide_True in Hf by done.
  exists a', cs'. split_and!; [done..| |].
  - intros Hno. rewrite replace_tag_with_inline_css_no_class in Hf by done.
    by injection Hf.
  - intros Hcl.
    destruct (replace_tag_with_inline_css_class _ _ _ Hcl Hf)
      as (new_styles & Hall & ->).
    exists new_styles. split_and!; [done| | |].
    + rewrite lookup_insert_ne by done. apply lookup_delete_eq.
    + apply lookup_insert_eq.
    + intros k Hk1 Hk2.
      by rewrite lookup_insert_ne, !lookup_delete_ne.
Qed.

(** A [span] of class [c1] under a stylesheet whose rule for [.c1] declares
    nothing: after the pass its [style] attribute is the empty string. *)
Lemma change_class_to_inlines_empty_style :
  let soup := Tag "body" ∅ [Tag "span" {["class" := AList ["c1"]]} [Text "x"]] in
  let styles := Stylesheet [Rule ".c1" []] in
  node_at [0] soup = Some (Tag "span" {["class" := AList ["c1"]]} [Text "x"])
  ∧ change_class_to_inlines soup styles
    = Some (Tag "body" ∅
              [Tag "span" {["style" := AStr EmptyString]} [Text "x"]])
  ∧ ¬ ∃ a' cs' s,
        (node_at [0] <$> change_class_to_inlines soup styles)
        = Some (Some (Tag "span" a' cs'))
        ∧ a' !! "style" = Some (AStr s) ∧ s ≠ EmptyString.
Proof.
  simpl. split_and!; [reflexivity|by vm_compute|].
  intros (a' & cs' & s & Hat & Hstyle & Hs).
  vm_compute in Hat. injection Hat as <- <-.
  vm_compute in Hstyle. by injection Hstyle as <-.
Qed.

(** ** Splitting into pages *)

(** An extraction splits the elements of the tree between the extracted
    subtree and what is left. *)
Lemma find_extract_size tag parent x parent' :
  find_extract tag parent = Some (x, parent') →
  node_size x + node_size parent' = node_size parent.
Proof.
  revert x parent'. induction parent as [s|nm a cs IH] using node_ind;
    intros x parent' H.
  - discriminate.
  - simpl in H.
    destruct (find_extract_in (find_extract tag) tag cs) as [[y cs']|] eqn:E;
      [|discriminate].
    injection H as <- <-. simpl.
    enough (node_size y + sum_list (node_size <$> cs')
            = sum_list (node_size <$> cs)) by lia.
    clear nm a. revert y cs' E.
    induction IH as [|c rest Hc _ IHrest]; intros y cs' E; simpl in E.
    + discriminate.
    + destruct (decide (name_of c = Some tag)).
      * injection E as <- <-. csimpl. lia.
      * destruct (find_extract tag c) as [[z c']|] eqn:Ec.
        -- injection E as <- <-. specialize (Hc _ _ eq_refl). csimpl. lia.
        -- destruct (find_extract_in (find_extract tag) tag rest)
             as [[z rest']|] eqn:Er; [|discriminate].
           injection E as <- <-. specialize (IHrest _ _ eq_refl). csimpl. lia.
Qed.

Lemma split_pages_eq parent :
  split_pages parent
  = match find_extract "hr" parent with
    | Some (hr, parent') => parent' :: split_pages hr
    | None => [parent]
    end.
Proof.
  funelim (split_pages parent); by rewrite find_extract_find, e.
Qed.

(** Induction along the chain of extracted [hr] elements. *)
Lemma split_pages_ind (P : node → Prop) :
  (∀ parent, find_extract "hr" parent = None → P parent) →
  (∀ parent hr parent',
     find_extract "hr" parent = Some (hr, parent') → P hr → P parent) →
  ∀ parent, P parent.
Proof.
  intros Hnone Hsome parent.
  remember (node_size parent) as n eqn:Hn. revert parent Hn.
  induction (lt_wf n) as [n _ IH]; intros parent ->.
  destruct (find_extract "hr" parent) as [[hr parent']|] eqn:E.
  - apply (Hsome _ _ _ E). apply (IH (node_size hr)); [|done].
    pose proof (find_extract_size _ _ _ _ E).
    pose proof (node_size_pos parent'). lia.
  - by apply Hnone.
Qed.

Lemma find_extract_none tag parent :
  find_extract tag parent = None → count_named tag parent = 0.
Proof.
  unfold count_named.
  induction parent as [s|nm a cs IH] using node_ind; intros E; [done|].
  simpl in *.
  destruct (find_extract_in (find_extract tag) tag cs) as [[y cs']|] eqn:Ecs;
    [done|]. clear E.
  induction IH as [|c rest Hc _ IHrest]; [done|]. simpl in Ecs.
  destruct (decide (name_of c = Some tag)) as [Hn|Hn]; [done|].
  destruct (find_extract tag c) as [[y c']|] eqn:Ec; [done|].
  destruct (find_extract_in (find_extract tag) tag rest) as [[y rest']|];
    [done|].
  csimpl. rewrite IHrest by done.
  destruct c as [s|cn ca ccs]; [done|]. simpl in *.
  rewrite decide_False by congruence. rewrite Hc; done.
Qed.

Lemma find_extract_none_node tag c :
  name_of c ≠ Some tag → find_extract tag c = None →
  count_named_node tag c = 0.
Proof.
  intros Hn E. apply find_extract_none in E. unfold count_named in E.
  destruct c as [s|nm a cs]; [done|]. simpl in *.
  rewrite decide_False by congruence. done.
Qed.

Lemma find_extract_in_extracted tag cs x cs' :
  Forall (λ c, ∀ y c', find_extract tag c = Some (y, c') →
               ∃ nm a ccs ccs', c = Tag nm a ccs ∧ c' = Tag nm a ccs'
                                ∧ extracted tag ccs y ccs') cs →
  find_extract_in (find_extract tag) tag cs = Some (x, cs') →
  extracted tag cs x cs'.
Proof.
  intros Hcs. revert x cs'.
  induction Hcs as [|c rest Hc _ IH]; intros x cs' E; simpl in E; [done|].
  destruct (decide (name_of c = Some tag)) as [Hn|Hn].
  - injection E as <- <-. by constructor.
  - destruct (find_extract tag c) as [[y c']|] eqn:Ec.
    + injection E as <- <-.
      destruct (Hc _ _ eq_refl) as (nm & a & ccs & ccs' & -> & -> & Hex).
      apply extracted_below; [|done]. simpl in Hn. congruence.
    + destruct (find_extract_in (find_extract tag) tag rest)
        as [[y rest']|] eqn:Er; [|done].
      injection E as <- <-.
      apply extracted_later; [by apply find_extract_none_node|]. by apply IH.
Qed.

Lemma find_extract_extracted tag parent x parent' :
  find_extract tag parent = Some (x, parent') →
  ∃ nm a cs cs', parent = Tag nm a cs ∧ parent' = Tag nm a cs'
                 ∧ extracted tag cs x cs'.
Proof.
  revert x parent'.
  induction parent as [s|nm a cs IH] using node_ind; intros x parent' E;
    [done|].
  simpl in E.
  destruct (find_extract_in (find_extract tag) tag cs) as [[y cs']|] eqn:Ecs;
    [|done].
  injection E as <- <-. exists nm, a, cs, cs'. split_and!; [done..|].
  by apply find_extract_in_extracted.
Qed.

Lemma extracted_named tag cs x cs' :
  extracted tag cs x cs' → name_of x = Some tag.
Proof. induction 1; done. Qed.

Lemma extracted_count tag cs x cs' :
  extracted tag cs x cs' →
  sum_list (count_named_node tag <$> cs)
  = count_named_node tag x + sum_list (count_named_node tag <$> cs').
Proof.
  induction 1 as [c rest Hc|nm a cs x cs' rest Hnm Hex IH
                  |c rest x rest' Hc Hex IH]; csimpl; lia.
Qed.

(** Extracting the first [hr] moves it, with the [hr] elements below it, out
    of the tree. *)
Lemma find_extract_count tag parent x parent' :
  find_extract tag parent = Some (x, parent') →
  count_named tag parent = S (count_named tag x + count_named tag parent').
Proof.
  intros E.
  destruct (find_extract_extracted _ _ _ _ E)
    as (nm & a & cs & cs' & -> & -> & Hex).
  unfold count_named. simpl. rewrite (extracted_count _ _ _ _ Hex).
  apply extracted_named in Hex. destruct x as [s|xn xa xcs]; [done|].
  injection Hex as ->. simpl. rewrite decide_True by done. lia.
Qed.


(** When every [hr] lies inside the [hr] before it, so that no page is left
    holding one, there are exactly [k + 1] pages. *)
Lemma split_pages_nested (body : node) :
  Forall (λ page, count_named "hr" page = 0) (split_pages body) →
  length (split_pages body) = count_named "hr" body + 1.
Proof.
  induction body as [body E|body hr body' E IH] using split_pages_ind;
    rewrite split_pages_eq, E; intros Hall.
  - apply find_extract_none in E. by rewrite E.
  - apply Forall_cons in Hall as [Hbody' Hpages].
    apply find_extract_count in E. rewrite E, Hbody'. simpl.
    rewrite (IH Hpages). by rewrite Nat.add_0_r.
Qed.









(** ** Merging consecutive tags *)




Lemma combine_loop_stable rec tag l before focus :
  stable rec tag (focus_flag tag focus) l →
  combine_loop rec tag l before focus = before ++ plug focus ++ l.
Proof.
  revert before focus. induction l as [|c rest IH]; intros before focus Hst.
  - simpl. by rewrite app_nil_r.
  - simpl in *. destruct (decide (name_of c = Some "hr")) as [Hhr|Hhr].
    + destruct Hst as [-> Hst]. destruct focus as [[lc aft]|].
      * rewrite IH by done. simpl. by rewrite <- app_assoc.
      * rewrite IH by done. simpl. by rewrite <- app_assoc.
    + destruct (decide (name_of c ≠ Some tag)) as [Hsep|Htag].
      * rewrite IH by (simpl; by rewrite bool_decide_eq_false_2).
        simpl. by rewrite <- !app_assoc.
      * destruct Hst as [Hb Hst]. apply dec_stable in Htag.
        destruct focus as [[lc aft]|]; simpl in Hb.
        -- apply bool_decide_eq_false in Hb. rewrite decide_True by done.
           rewrite IH by (simpl; by rewrite bool_decide_eq_true_2).
           simpl. by rewrite <- !app_assoc.
        -- rewrite IH by (simpl; by rewrite bool_decide_eq_true_2). done.
Qed.












(** The text-only heading of C8 is taken out by the closing loop of the merge
    pass: [findChildren()] finds no tag below it. *)
Lemma combine_tags_drops_text_only :
  count_tags [Text "Herp"] = 0
  ∧ combine_tags "h6" (Tag "body" ∅ [Tag "h6" ∅ [Text "Herp"]])
    = Tag "body" ∅ [].
Proof. by vm_compute. Qed.



(** ** The archive reader *)

Lemma list_ascii_of_string_app s1 s2 :
  String.list_ascii_of_string (s1 +:+ s2)
  = String.list_ascii_of_string s1 ++ String.list_ascii_of_string s2.
Proof. induction s1 as [|c s1 IH]; simpl; [done|]. by rewrite IH. Qed.

Lemma list_ascii_of_string_upper s :
  String.list_ascii_of_string (upper s)
  = upper_ascii <$> String.list_ascii_of_string s.
Proof. induction s as [|c s IH]; simpl; [done|]. by rewrite IH. Qed.

Lemma upper_ascii_inv (c : ascii) :
  (upper_ascii c = "."%char → c = "."%char)
  ∧ (upper_ascii c = "H"%char → c ∈ ["h"; "H"]%char)
  ∧ (upper_ascii c = "T"%char → c ∈ ["t"; "T"]%char)
  ∧ (upper_ascii c = "M"%char → c ∈ ["m"; "M"]%char)
  ∧ (upper_ascii c = "L"%char → c ∈ ["l"; "L"]%char).
Proof.
  destruct c as [[] [] [] [] [] [] [] []]; vm_compute;
    split_and!; intros H; try discriminate H; set_solver.
Qed.

Lemma endswith_html name :
  endswith (upper name) ".HTML" = true ↔ html_suffix name.
Proof.
  unfold endswith, html_suffix. rewrite bool_decide_eq_true. split.
  - intros [k Hk]. rewrite list_ascii_of_string_upper in Hk.
    simpl in Hk.
    apply fmap_app_inv in Hk as (l1 & l2 & _ & Hl2 & Hname).
    symmetry in Hl2.
    destruct l2 as [|c0 [|c1 [|c2 [|c3 [|c4 [|]]]]]]; try done.
    injection Hl2 as H0 H1 H2 H3 H4.
    apply upper_ascii_inv in H0 as ->. apply upper_ascii_inv in H1.
    apply upper_ascii_inv in H2. apply upper_ascii_inv in H3.
    apply upper_ascii_inv in H4.
    exists (String.string_of_list_ascii l1), c1, c2, c3, c4.
    split_and!; [|done..].
    rewrite <- (String.string_of_list_ascii_of_string name), Hname.
    clear. induction l1 as [|c l1 IH]; simpl; [done|]. by rewrite IH.
  - intros (stem & c1 & c2 & c3 & c4 & -> & H1 & H2 & H3 & H4).
    exists (upper_ascii <$> String.list_ascii_of_string stem).
    rewrite list_ascii_of_string_upper, list_ascii_of_string_app, fmap_app.
    f_equal. simpl.
    repeat match goal with
           | H : _ ∈ _ :: _ |- _ => apply elem_of_cons in H as [->|H]
           | H : _ ∈ [] |- _ => by apply elem_of_nil in H
           end; done.
Qed.

Lemma html_file_name_none (files : list string) :
  Forall (λ f, ¬ html_suffix f) files → html_file_name files = None.
Proof.
  unfold html_file_name. intros H.
  enough (∀ acc, foldl (λ html_file_name f,
                          if endswith (upper f) ".HTML" then Some f
                          else html_file_name) acc files = acc) by done.
  intros acc. revert acc.
  induction H as [|f files Hf _ IH]; intros acc; simpl; [done|].
  destruct (endswith (upper f) ".HTML") eqn:E; [|apply IH].
  by apply endswith_html in E.
Qed.

Lemma html_file_name_last (before after : list string) (f : string) :
  html_suffix f → Forall (λ f', ¬ html_suffix f') after →
  html_file_name (before ++ f :: after) = Some f.
Proof.
  intros Hf Hafter. unfold html_file_name. rewrite foldl_app. simpl.
  apply endswith_html in Hf as ->.
  generalize (Some f). intros acc.
  induction Hafter as [|f' after Hf' _ IH]; simpl; [done|].
  destruct (endswith (upper f') ".HTML") eqn:E; [|apply IH].
  by apply endswith_html in E.
Qed.

Lemma read_last (before after : list entry) (e : entry) :
  Forall (λ e', e_name e' ≠ e_name e) after →
  read (before ++ e :: after) (e_name e) = Some (e_data e).
Proof.
  intros Hafter. unfold read.
  rewrite filter_app, filter_cons_True by done.
  replace (filter (λ e', e_name e' = e_name e) after) with (@nil entry).
  - by rewrite last_snoc.
  - induction Hafter as [|e' after He' _ IH]; [done|].
    by rewrite filter_cons_False.
Qed.

(** C1, as the code has it.  [extract_html] returns the bytes of the last
    entry of the archive whose name ends in [.html] in any case, and [None]
    when no entry name has that suffix. *)
Theorem extract_html_last_entry (W : Type) (h : handler W) (w w' : W)
    (file_name : string) (zf : archive) :
  h _ (ZipFile file_name) w = (inr zf, w') →
  (Forall (λ e, ¬ html_suffix (e_name e)) zf →
   result (run h (extract_html file_name) w) = inr None)
  ∧ (∀ before e after,
       zf = before ++ e :: after →
       html_suffix (e_name e) →
       Forall (λ e', ¬ html_suffix (e_name e')) after →
       result (run h (extract_html file_name) w) = inr (Some (e_data e))).
Proof.
  intros Hzip. split.
  - intros Hnone. simpl. rewrite Hzip. simpl.
    rewrite html_file_name_none; [done|].
    unfold namelist. by apply Forall_fmap.
  - intros before e after -> He Hafter. simpl. rewrite Hzip. simpl.
    unfold namelist. rewrite fmap_app, fmap_cons.
    rewrite html_file_name_last; [|done|by apply Forall_fmap].
    rewrite read_last; [done|].
    eapply Forall_impl; [exact Hafter|]. simpl. intros e' He' Heq.
    apply He'. by rewrite Heq.
Qed.

(** An archive with two HTML entries: the bytes returned are those of the
    second, not of the first. *)
Lemma extract_html_not_first :
  let zf := [Entry "a.html" [Byte.x01]; Entry "b.HTML" [Byte.x02]] in
  html_suffix "a.html"
  ∧ result (run (serve zf) (extract_html "doc.zip") ()) = inr (Some [Byte.x02])
  ∧ result (run (serve zf) (extract_html "doc.zip") ()) ≠ inr (Some [Byte.x01]).
Proof.
  simpl. split_and!; [|by vm_compute..].
  apply endswith_html. by vm_compute.
Qed.

(** ** The pipeline *)

Lemma run_bind {W A B} (h : handler W) (m : prog A) (f : A → prog B) (w : W) :
  run h (m ≫= f) w
  = match result (run h m w) with
    | inl e => Outcome (inl e) (world (run h m w)) (trace (run h m w))
    | inr a =>
        let o := run h (f a) (world (run h m w)) in
        Outcome (result o) (world o) (trace (run h m w) ++ trace o)
    end.
Proof.
  revert w. induction m as [a|e|X op k IH]; intros w; simpl.
  - by destruct (run h (f a) w).
  - done.
  - destruct (h X op w) as [[e|x] w1]; simpl; [done|].
    unfold mbind, prog_bind in IH. rewrite IH.
    by destruct (result (run h (k x) w1)).
Qed.

(** C4, as the code has it.  For an archive without an entry whose name ends
    in [.html], [extract_html] returns [None]; the pipeline does not stop
    there: [get_html_soup] hands the [None] to the parser, and
    [unpack_zip_to_html], which has created the output directory by then,
    goes on to that call. *)
Theorem missing_html_reaches_parser (W : Type) (h : handler W) (w0 w w' : W)
    (os_path_join : string → string → string)
    (os_path_split : string → string * string) (prettify : node → string)
    (file_name output_dir : string) (zf : archive) :
  let new_dir :=
    os_path_join output_dir (remove_zip (last_segment file_name EmptyString)) in
  h _ (os_mkdir new_dir) w0 = (inr (), w) →
  h _ (ZipFile file_name) w = (inr zf, w') →
  Forall (λ e, ¬ html_suffix (e_name e)) zf →
  result (run h (extract_html file_name) w) = inr None
  ∧ trace (run h (get_html_soup file_name) w)
    = [Event (ZipFile file_name); Event (BeautifulSoup None)]
  ∧ ∃ calls,
      trace (run h (unpack_zip_to_html os_path_join os_path_split prettify
                      file_name output_dir) w0)
      = Event (os_mkdir new_dir) :: Event (ZipFile file_name)
          :: Event (BeautifulSoup None) :: calls.
Proof.
  intros new_dir Hmkdir Hzip Hnone.
  assert (html_file_name (namelist zf) = None) as Hname.
  { apply html_file_name_none. unfold namelist. by apply Forall_fmap. }
  assert (∃ o, run h (get_html_soup file_name) w = o
               ∧ trace o = [Event (ZipFile file_name);
                            Event (BeautifulSoup None)]) as (o & Ho & Htr).
  { eexists. split; [done|]. simpl. rewrite Hzip. simpl. rewrite Hname. simpl.
    by destruct (h node (BeautifulSoup None) w') as [[e|x] w1]. }
  split_and!.
  - simpl. rewrite Hzip. simpl. by rewrite Hname.
  - by rewrite Ho.
  - unfold unpack_zip_to_html. fold new_dir.
    rewrite run_bind.
    assert (run h (call (os_mkdir new_dir)) w0
            = Outcome (inr ()) w [Event (os_mkdir new_dir)]) as ->
      by (simpl; by rewrite Hmkdir).
    cbn [result world trace]. unfold get_body_soup.
    rewrite !run_bind, Ho, Htr.
    destruct (result o) as [e|soup]; cbn [run result world trace app]; eauto.
Qed.

(** An archive holding only an image: extraction returns [None], and the
    parser is called all the same, by [get_html_soup] and in the run of
    [unpack_zip_to_html]. *)
Lemma missing_html_parser_called :
  let zf := [Entry "images/fig1.png" [Byte.x89]] in
  let join := λ a b : string, a +:+ "/" +:+ b in
  let split := λ p : string, (p, EmptyString) in
  endswith (upper "images/fig1.png") ".HTML" = false
  ∧ result (run (serve zf) (extract_html "doc.zip") ()) = inr None
  ∧ trace (run (serve zf) (get_html_soup "doc.zip") ())
    = [Event (ZipFile "doc.zip"); Event (BeautifulSoup None)]
  ∧ trace (run (serve zf)
             (unpack_zip_to_html join split decode "doc.zip" "out") ())
    = [Event (os_mkdir "out/doc"); Event (ZipFile "doc.zip");
       Event (BeautifulSoup None)].
Proof. by vm_compute. Qed.

(** ** The theorems at concrete inputs *)

Lemma extract_html_last_entry_example :
  result (run (serve [Entry "a.html" [Byte.x01]; Entry "b.HTML" [Byte.x02]])
            (extract_html "doc.zip") ())
  = inr (Some [Byte.x02]).
Proof.
  apply (proj2 (extract_html_last_entry unit
                  (serve [Entry "a.html" [Byte.x01]; Entry "b.HTML" [Byte.x02]])
                  () () "doc.zip"
                  [Entry "a.html" [Byte.x01]; Entry "b.HTML" [Byte.x02]]
                  eq_refl)
           [Entry "a.html" [Byte.x01]] (Entry "b.HTML" [Byte.x02]) []).
  - reflexivity.
  - apply endswith_html. vm_compute. reflexivity.
  - apply Forall_nil_2.
Defined.

Lemma missing_html_reaches_parser_example :
  result (run (serve [Entry "images/fig1.png" [Byte.x89]])
            (extract_html "doc.zip") ()) = inr None
  ∧ trace (run (serve [Entry "images/fig1.png" [Byte.x89]])
             (get_html_soup "doc.zip") ())
    = [Event (ZipFile "doc.zip"); Event (BeautifulSoup None)]
  ∧ ∃ calls,
      trace (run (serve [Entry "images/fig1.png" [Byte.x89]])
               (unpack_zip_to_html (λ a b, a +:+ "/" +:+ b)
                  (λ p, (p, EmptyString)) decode "doc.zip" "out") ())
      = Event (os_mkdir "out/doc") :: Event (ZipFile "doc.zip")
          :: Event (BeautifulSoup None) :: calls.
Proof.
  apply (missing_html_reaches_parser unit
           (serve [Entry "images/fig1.png" [Byte.x89]]) () () ()
           (λ a b, a +:+ "/" +:+ b) (λ p, (p, EmptyString)) decode
           "doc.zip" "out" [Entry "images/fig1.png" [Byte.x89]]).
  - reflexivity.
  - reflexivity.
  - apply Forall_cons_2; [|apply Forall_nil_2].
    intros H. apply endswith_html in H. vm_compute in H. discriminate H.
Defined.

Lemma strip_class_from_basics_frame_example :
  ∃ a' cs',
    node_at [0] (strip_class_from_basics
                   (Tag "body" ∅
                      [Tag "p" {["class" := AList ["c3"]; "id" := AStr "x"]}
                         [Text "t"]]))
    = Some (Tag "p" a' cs')
    ∧ a' !! "class" = None
    ∧ ∀ k, k ≠ "class" →
           a' !! k
           = ({["class" := AList ["c3"]; "id" := AStr "x"]}
                : gmap string attr_value) !! k.
Proof.
  apply (strip_class_from_basics_frame
           (Tag "body" ∅
              [Tag "p" {["class" := AList ["c3"]; "id" := AStr "x"]}
                 [Text "t"]])
           [0] "p" {["class" := AList ["c3"]; "id" := AStr "x"]} [Text "t"]).
  - discriminate.
  - reflexivity.
  - repeat first [apply list_elem_of_here | apply list_elem_of_further].
Defined.

Lemma change_class_to_inlines_spans_example :
  let styles := Stylesheet [Rule ".c2" [Declaration "color" ["red"]];
                            Rule ".c2" [Declaration "color" ["blue"]]] in
  let a : gmap string attr_value :=
    {["class" := AList ["c2"]; "id" := AStr "x"]} in
  ∃ a' cs',
    node_at [0] (Tag "body" ∅
                   [Tag "span" {["style" := AStr "color:blue"; "id" := AStr "x"]}
                      [Text "t"]])
    = Some (Tag "span" a' cs')
    ∧ length cs' = length [Text "t"]
    ∧ (classes_of a = [] → a' = a)
    ∧ (classes_of a ≠ [] →
       ∃ new_styles,
         Forall2 (λ c s, get_inline_style styles ("." +:+ c) = Some s)
                 (classes_of a) new_styles
         ∧ a' !! "class" = None
         ∧ a' !! "style" = Some (AStr (String.concat ";" new_styles))
         ∧ ∀ k, k ≠ "class" → k ≠ "style" → a' !! k = a !! k).
Proof.
  intros styles a.
  apply (change_class_to_inlines_spans
           (Tag "body" ∅ [Tag "span" a [Text "t"]]) _ styles [0] a [Text "t"]).
  - vm_compute. reflexivity.
  - discriminate.
  - reflexivity.
Defined.

(** * Further properties *)

(** ** Attribute stripping *)

(** [strip_attr] drops the attribute [attr_name] and nothing else; a
    dictionary without that attribute comes back as it is. *)
Theorem strip_attr_lookup (attrs : gmap string attr_value)
    (attr_name : string) :
  strip_attr attrs attr_name !! attr_name = None
  ∧ (∀ k, k ≠ attr_name → strip_attr attrs attr_name !! k = attrs !! k)
  ∧ (attrs !! attr_name = None → strip_attr attrs attr_name = attrs).
Proof.
  rewrite strip_attr_delete. split_and!.
  - apply lookup_delete_eq.
  - intros k Hk. by apply lookup_delete_ne.
  - apply delete_id.
Qed.

Lemma node_at_update_all_text f p n s :
  node_at p n = Some (Text s) → node_at p (update_all f n) = Some (Text s).
Proof. intros H. by rewrite node_at_update_all, H. Qed.

(** [strip_soup_tags_attr], element by element below the root: a tag named
    [tag] loses the attribute [attr_name] and keeps its other attributes, a
    tag of another name keeps all its attributes, a string stays as it is,
    and every element stays at its place with as many children. *)
Theorem strip_soup_tags_attr_elements (soup : node) (tag attr_name : string)
    (p : list nat) :
  p ≠ [] →
  match node_at p soup with
  | Some (Text s) =>
      node_at p (strip_soup_tags_attr soup tag attr_name) = Some (Text s)
  | Some (Tag nm a cs) =>
      ∃ cs',
        node_at p (strip_soup_tags_attr soup tag attr_name)
        = Some (Tag nm (if decide (nm = tag) then delete attr_name a else a) cs')
        ∧ length cs' = length cs
  | None => node_at p (strip_soup_tags_attr soup tag attr_name) = None
  end.
Proof.
  intros Hp.
  rewrite strip_soup_tags_attr_sweep, node_at_update_descendants by done.
  destruct (node_at p soup) as [[s|nm a cs]|]; simpl; [done| |done].
  eexists. split; [|apply length_map].
  by rewrite strip_attr_delete.
Qed.

Lemma strip_soup_tags_attr_elements_example :
  ∃ cs',
    node_at [0; 0] (strip_soup_tags_attr
                      (Tag "body" ∅
                         [Tag "div" {["id" := AStr "d"]}
                            [Tag "p" {["id" := AStr "x"; "lang" := AStr "en"]}
                               [Text "t"]]])
                      "p" "id")
    = Some (Tag "p" (if decide ("p" = "p")
                     then delete "id" {["id" := AStr "x"; "lang" := AStr "en"]}
                     else {["id" := AStr "x"; "lang" := AStr "en"]}) cs')
    ∧ length cs' = length [Text "t"].
Proof.
  apply (strip_soup_tags_attr_elements
           (Tag "body" ∅
              [Tag "div" {["id" := AStr "d"]}
                 [Tag "p" {["id" := AStr "x"; "lang" := AStr "en"]}
                    [Text "t"]]])
           "p" "id" [0; 0]).
  discriminate.
Defined.

(** Running [strip_class_from_basics] a second time changes nothing. *)
Theorem strip_class_from_basics_idempotent (soup : node) :
  strip_class_from_basics (strip_class_from_basics soup)
  = strip_class_from_basics soup.
Proof.
  rewrite !strip_class_from_basics_sweep, update_descendants_compose.
  apply update_descendants_ext. intros nm a. unfold strip_basic.
  case_decide; [|done]. apply delete_delete_eq.
Qed.

(** [strip_class_from_basics] leaves alone the tags it does not name: the root
    it is given and every tag whose name is not in its list keep all their
    attributes, [class] included, at their place. *)
Theorem strip_class_from_basics_others (soup : node) (p : list nat)
    (nm : string) (a : gmap string attr_value) (cs : list node) :
  node_at p soup = Some (Tag nm a cs) →
  p = [] ∨ nm ∉ basics →
  ∃ cs', node_at p (strip_class_from_basics soup) = Some (Tag nm a cs')
         ∧ length cs' = length cs.
Proof.
  intros Hat Hwhich. rewrite strip_class_from_basics_sweep.
  destruct (decide (p = [])) as [->|Hp].
  - simpl in Hat. injection Hat as ->. simpl.
    eexists. split; [done|]. apply length_map.
  - rewrite node_at_update_descendants, Hat by done. simpl.
    destruct Hwhich as [?|Hnm]; [done|]. eexists. split; [|apply length_map].
    unfold strip_basic. by rewrite decide_False.
Qed.

Lemma strip_class_from_basics_others_example :
  ∃ cs',
    node_at [0] (strip_class_from_basics
                   (Tag "body" ∅
                      [Tag "span" {["class" := AList ["c4"]]} [Text "t"]]))
    = Some (Tag "span" {["class" := AList ["c4"]]} cs')
    ∧ length cs' = length [Text "t"].
Proof.
  apply (strip_class_from_basics_others
           (Tag "body" ∅ [Tag "span" {["class" := AList ["c4"]]} [Text "t"]])
           [0] "span" {["class" := AList ["c4"]]} [Text "t"]).
  - reflexivity.
  - right. unfold basics. intros H.
    repeat (apply elem_of_cons in H as [H|H]; [discriminate H|]).
    by apply elem_of_nil in H.
Defined.

(** ** The style resolver and the inline styles *)








Lemma node_at_try_update_all_text f p n n' s :
  try_update_all f n = Some n' →
  node_at p n = Some (Text s) → node_at p n' = Some (Text s).
Proof.
  revert n n'. induction p as [|i p IH]; intros n n' Hn Hat.
  - simpl in Hat. injection Hat as ->. simpl in Hn. by injection Hn as <-.
  - destruct n as [s0|nm0 a0 cs0]; simpl in Hat; [done|].
    destruct (cs0 !! i) as [c|] eqn:Hc; [|done].
    simpl in Hn. destruct (f nm0 a0) as [a0'|]; simpl in Hn; [|done].
    destruct (mapM (try_update_all f) cs0) as [cs0'|] eqn:Hcs; simpl in Hn;
      [|done].
    injection Hn as <-. apply mapM_Some in Hcs.
    destruct (Forall2_lookup_l _ _ _ _ _ Hcs Hc) as (c' & Hc' & Hcc).
    simpl. rewrite Hc'. by eapply IH.
Qed.

(** A successful [change_class_to_inlines] leaves everything but the [span]
    tags below the root as it was: the root, the tags of other names with
    all their attributes, and the strings, each at its place. *)
Theorem change_class_to_inlines_others (soup soup' : node)
    (styles : stylesheet) (p : list nat) (n : node) :
  change_class_to_inlines soup styles = Some soup' →
  node_at p soup = Some n →
  p = [] ∨ name_of n ≠ Some "span" →
  match n with
  | Text s => node_at p soup' = Some (Text s)
  | Tag nm a cs =>
      ∃ cs', node_at p soup' = Some (Tag nm a cs') ∧ length cs' = length cs
  end.
Proof.
  rewrite change_class_to_inlines_sweep. intros Hpass Hat Hwhich.
  destruct (decide (p = [])) as [->|Hp].
  - simpl in Hat. injection Hat as ->.
    destruct n as [s|nm a cs]; simpl in Hpass; [by injection Hpass as <-|].
    destruct (mapM _ cs) as [cs'|] eqn:Hcs; simpl in Hpass; [|done].
    injection Hpass as <-. exists cs'. split; [done|].
    apply mapM_Some in Hcs. symmetry. by eapply Forall2_length.
  - destruct Hwhich as [?|Hname]; [done|].
    destruct n as [s|nm a cs].
    + destruct p as [|i p]; [done|].
      destruct soup as [s0|nm0 a0 cs0]; simpl in Hat; [done|].
      destruct (cs0 !! i) as [c|] eqn:Hc; [|done].
      simpl in Hpass.
      destruct (mapM _ cs0) as [cs0'|] eqn:Hcs; simpl in Hpass; [|done].
      injection Hpass as <-. apply mapM_Some in Hcs.
      destruct (Forall2_lookup_l _ _ _ _ _ Hcs Hc) as (c' & Hc' & Hcc).
      simpl. rewrite Hc'. by eapply node_at_try_update_all_text.
    + destruct (node_at_try_update_descendants _ _ _ _ _ _ _ Hp Hpass Hat)
        as (a' & cs' & Hf & Hat' & Hlen).
      rewrite decide_False in Hf by (simpl in Hname; congruence).
      injection Hf as <-. by exists cs'.
Qed.

Lemma change_class_to_inlines_others_example :
  ∃ cs',
    node_at [0] (Tag "body" ∅
                   [Tag "p" {["class" := AList ["c9"]]}
                      [Tag "span" {["style" := AStr "color:blue"]} []]])
    = Some (Tag "p" {["class" := AList ["c9"]]} cs')
    ∧ length cs' = length [Tag "span" {["class" := AList ["c2"]]} []].
Proof.
  apply (change_class_to_inlines_others
           (Tag "body" ∅
              [Tag "p" {["class" := AList ["c9"]]}
                 [Tag "span" {["class" := AList ["c2"]]} []]])
           _ (Stylesheet [Rule ".c2" [Declaration "color" ["blue"]]]) [0]
           (Tag "p" {["class" := AList ["c9"]]}
              [Tag "span" {["class" := AList ["c2"]]} []])).
  - vm_compute. reflexivity.
  - reflexivity.
  - right. discriminate.
Defined.

(** ** Merging consecutive tags *)

Lemma clear_childless_no_tag tag c :
  count_named_node tag c = 0 → clear_childless tag c = [c].
Proof.
  induction c as [s|nm a cs IH] using node_ind; [done|].
  simpl. intros Hz.
  assert (nm ≠ tag) as Hnm by (intros ->; by rewrite decide_True in Hz).
  rewrite decide_False in Hz by done. simpl in Hz.
  assert (cs ≫= clear_childless tag = cs) as ->.
  { induction IH as [|c rest Hc _ IHrest]; [done|]. csimpl in *.
    apply Nat.eq_add_0 in Hz as [Hc0 Hrest0].
    by rewrite (Hc Hc0), (IHrest Hrest0). }
  rewrite decide_False; [done|]. by intros [? _].
Qed.

Lemma clean_no_tag tag cs :
  sum_list (count_named_node tag <$> cs) = 0 →
  cs ≫= clear_childless tag = cs.
Proof.
  induction cs as [|c rest IH]; [done|]. csimpl. intros Hz.
  apply Nat.eq_add_0 in Hz as [Hc0 Hrest0].
  by rewrite (clear_childless_no_tag _ _ Hc0), (IH Hrest0).
Qed.

(** A document that holds no tag named [tag] below its root comes out of
    [combine_tags] as it went in. *)
Theorem combine_tags_no_tag (tag : string) (body : node) :
  count_named tag body = 0 → combine_tags tag body = body.
Proof.
  unfold count_named.
  induction body as [s|nm a cs IH] using node_ind; [done|].
  rewrite combine_tags_eq. cbn [contents_of]. intros Hz.
  assert (stable (combine_tags tag) tag false cs) as Hst.
  { generalize false.
    induction IH as [|c rest Hc _ IHrest]; intros b; [done|]. csimpl in Hz.
    apply Nat.eq_add_0 in Hz as [Hc0 Hrest0]. simpl.
    assert (name_of c ≠ Some tag) as Hname.
    { destruct c as [s|cn ca ccs]; [done|]. simpl in *. intros [= ->].
      by rewrite decide_True in Hc0. }
    assert (combine_tags tag c = c) as Hfix.
    { apply Hc. destruct c as [s|cn ca ccs]; [done|]. simpl in *.
      by apply Nat.eq_add_0 in Hc0 as [_ ?]. }
    case_decide; [by split; [|apply IHrest]|].
    rewrite decide_True by done. by apply IHrest. }
  rewrite combine_loop_stable by done. simpl. by rewrite clean_no_tag.
Qed.

Lemma combine_tags_no_tag_example :
  combine_tags "h6"
    (Tag "body" ∅ [Tag "p" ∅ [Text "a"]; Tag "hr" ∅ [Tag "p" ∅ []]])
  = Tag "body" ∅ [Tag "p" ∅ [Text "a"]; Tag "hr" ∅ [Tag "p" ∅ []]].
Proof.
  apply (combine_tags_no_tag "h6"
           (Tag "body" ∅ [Tag "p" ∅ [Text "a"]; Tag "hr" ∅ [Tag "p" ∅ []]])).
  reflexivity.
Defined.







Lemma br_soup_no_tag tag :
  tag ≠ "br" → tag ≠ "[document]" → count_named_node tag br_soup = 0.
Proof.
  intros Hbr Hdoc. simpl. rewrite !decide_False by done. done.
Qed.










(** ** Splitting into pages, further *)

Lemma split_pages_head parent :
  ∃ page pages, split_pages parent = page :: pages
                ∧ name_of page = name_of parent.
Proof.
  rewrite split_pages_eq.
  destruct (find_extract "hr" parent) as [[hr parent']|] eqn:E; [|by eauto].
  destruct (find_extract_extracted _ _ _ _ E)
    as (nm & a & cs & cs' & -> & -> & _). by eauto.
Qed.

(** A body without an [hr] below it comes back as the only page, as it is;
    any other body gives more than one page. *)
Theorem split_pages_single (body : node) :
  split_pages body = [body] ↔ count_named "hr" body = 0.
Proof.
  rewrite split_pages_eq.
  destruct (find_extract "hr" body) as [[hr body']|] eqn:E.
  - destruct (split_pages_head hr) as (page & pages & -> & _).
    apply find_extract_count in E. rewrite E. by split.
  - by apply find_extract_none in E.
Qed.

(** Page 0 is the root handed in, with its name; every later page is an
    [hr] element taken out of the page before it. *)
Theorem split_pages_roots (body : node) :
  (name_of <$> head (split_pages body)) = Some (name_of body)
  ∧ Forall (λ page, name_of page = Some "hr") (tail (split_pages body)).
Proof.
  split.
  - destruct (split_pages_head body) as (page & pages & -> & Hname).
    simpl. by rewrite Hname.
  - induction body as [body E|body hr body' E IH] using split_pages_ind;
      rewrite split_pages_eq, E; [done|]. simpl.
    destruct (find_extract_extracted _ _ _ _ E)
      as (nm & a & cs & cs' & _ & _ & Hex).
    apply extracted_named in Hex.
    destruct (split_pages_head hr) as (page & pages & Hpages & Hname).
    rewrite Hpages in *. constructor; [congruence|done].
Qed.

(** The pages share out the tags and strings of the body: none is dropped
    and none is copied. *)
Theorem split_pages_size (body : node) :
  sum_list (node_size <$> split_pages body) = node_size body.
Proof.
  induction body as [body E|body hr body' E IH] using split_pages_ind;
    rewrite split_pages_eq, E; csimpl.
  - lia.
  - rewrite IH. apply find_extract_size in E. lia.
Qed.

(** ** The name of the output directory *)

Lemma append_cons c s t : String c s +:+ t = String c (s +:+ t).
Proof. done. Qed.

Lemma append_snoc s c t :
  (s +:+ String c EmptyString) +:+ t = s +:+ String c t.
Proof.
  induction s as [|c' s IH]; [done|]. rewrite !append_cons. by rewrite IH.
Qed.

Lemma append_empty_r s : s +:+ EmptyString = s.
Proof.
  induction s as [|c s IH]; [done|]. rewrite append_cons. by rewrite IH.
Qed.

Lemma last_segment_plain s cur :
  "\"%char ∉ String.list_ascii_of_string s →
  last_segment s cur = cur +:+ s.
Proof.
  revert cur. induction s as [|c s IH]; intros cur Hs; simpl in *.
  - by rewrite append_empty_r.
  - apply not_elem_of_cons in Hs as [Hc Hs].
    rewrite decide_False by done. rewrite IH by done. apply append_snoc.
Qed.

Lemma last_segment_after dir name cur :
  last_segment (dir +:+ String "\" name) cur = last_segment name EmptyString.
Proof.
  revert cur. induction dir as [|c dir IH]; intros cur.
  - change (EmptyString +:+ String "\" name) with (String "\" name).
    by simpl.
  - rewrite append_cons. simpl. destruct (decide (c = "\"%char)); apply IH.
Qed.

Lemma remove_zip_stem stem :
  "."%char ∉ String.list_ascii_of_string stem →
  remove_zip (stem +:+ ".zip") = stem.
Proof.
  induction stem as [|c stem IH]; intros Hs; [done|]. simpl in Hs.
  apply not_elem_of_cons in Hs as [Hc Hs].
  rewrite append_cons.
  transitivity (String c (remove_zip (stem +:+ ".zip"))); [|by rewrite IH].
  destruct c as [[] [] [] [] [] [] [] []]; try done.
Qed.

(** A path without a backslash, a path written with forward slashes for
    one, is taken whole as its last segment. *)
Theorem last_segment_no_backslash (s : string) :
  "\"%char ∉ String.list_ascii_of_string s →
  last_segment s EmptyString = s.
Proof. apply last_segment_plain. Qed.

(** For the archive [dir\stem.zip], the directory made inside [output_dir]
    is named [stem], when [stem] has no backslash and no dot. *)
Theorem output_directory_name (dir stem : string) :
  "\"%char ∉ String.list_ascii_of_string stem →
  "."%char ∉ String.list_ascii_of_string stem →
  remove_zip (last_segment (dir +:+ "\" +:+ stem +:+ ".zip") EmptyString)
  = stem.
Proof.
  intros Hslash Hdot.
  change (dir +:+ "\" +:+ stem +:+ ".zip")
    with (dir +:+ String "\" (stem +:+ ".zip")).
  rewrite last_segment_after, last_segment_plain.
  - by apply remove_zip_stem.
  - rewrite list_ascii_of_string_app. apply not_elem_of_app. split; [done|].
    by apply (bool_decide_unpack _).
Qed.

(** ** The pipeline, further *)

Lemma html_file_name_snoc files f :
  html_file_name (files ++ [f])
  = if endswith (upper f) ".HTML" then Some f else html_file_name files.
Proof. unfold html_file_name. by rewrite foldl_app. Qed.

Lemma html_file_name_elem files f :
  html_file_name files = Some f → f ∈ files.
Proof.
  induction files as [|f' files IH] using rev_ind; [done|].
  rewrite html_file_name_snoc, elem_of_app, list_elem_of_singleton.
  destruct (endswith (upper f') ".HTML"); [|by left; apply IH].
  intros [= ->]. by right.
Qed.

Lemma html_file_name_some files :
  Exists html_suffix files → is_Some (html_file_name files).
Proof.
  induction files as [|f files IH] using rev_ind; intros Hex.
  - by apply Exists_nil in Hex.
  - rewrite html_file_name_snoc.
    destruct (endswith (upper f) ".HTML") eqn:E; [done|].
    apply Exists_app in Hex as [Hex|Hex]; [by apply IH|].
    apply Exists_cons in Hex as [Hf|Hex]; [|by apply Exists_nil in Hex].
    apply endswith_html in Hf. congruence.
Qed.

Lemma read_elem (zf : archive) (f : string) :
  f ∈ namelist zf → is_Some (read zf f).
Proof.
  unfold namelist, read. intros (e & -> & He)%list_elem_of_fmap.
  apply fmap_is_Some.
  assert (e ∈ filter (λ e', e_name e' = e_name e) zf) as Hin
    by by apply list_elem_of_filter.
  destruct (filter (λ e', e_name e' = e_name e) zf) as [|x l] using rev_ind.
  - by apply elem_of_nil in Hin.
  - rewrite last_snoc. by eexists.
Qed.

(** [extract_html] opens the archive, once, and makes no other call; it then
    returns, never raising by itself: the name it reads is one of the
    archive's own. *)
Theorem extract_html_single_call (W : Type) (h : handler W) (w w' : W)
    (file_name : string) (zf : archive) :
  h _ (ZipFile file_name) w = (inr zf, w') →
  ∃ html_doc,
    run h (extract_html file_name) w
    = Outcome (inr html_doc) w' [Event (ZipFile file_name)].
Proof.
  intros Hzip. simpl. rewrite Hzip. simpl.
  destruct (html_file_name (namelist zf)) as [f|] eqn:Hf; [|by eexists].
  apply html_file_name_elem, read_elem in Hf as [html_doc ->].
  by eexists.
Qed.

Lemma writes_app tr1 tr2 : writes (tr1 ++ tr2) = writes tr1 ++ writes tr2.
Proof. apply omap_app. Qed.

(** A loop whose turns, when they succeed, write what [g] says. *)
Lemma for_each_writes {W A} (h : handler W) (l : list A)
    (body : A → prog unit) (g : A → list (string * string * file_data))
    (w : W) :
  (∀ x w, x ∈ l → result (run h (body x) w) = inr () →
          writes (trace (run h (body x) w)) = g x) →
  result (run h (for_each l body) w) = inr () →
  writes (trace (run h (for_each l body) w)) = l ≫= g.
Proof.
  revert w. induction l as [|x l IH]; intros w Hbody Hok; [done|].
  cbn [for_each] in *. rewrite run_bind in *.
  destruct (result (run h (body x) w)) as [e|[]] eqn:Hx; [done|].
  cbn [result trace] in *. rewrite writes_app. csimpl. f_equal.
  - apply Hbody; [by left|done].
  - apply IH; [|done]. intros y w1 Hy. apply Hbody. by right.
Qed.

(** One turn of the loop of [extract_pngs]. *)
Lemma extract_pngs_turn {W} (h : handler W) (w : W) (os_path_join : string → string → string)
    (os_path_split : string → string * string) (zf : archive)
    (output_dir f : string) :
  let output_name := os_path_join output_dir f in
  let img_dir := (os_path_split output_name).1 in
  let turn :=
    call (os_path_exists img_dir) ≫= λ found : bool,
    (if found then Ret () else call (os_makedirs img_dir)) ≫= λ _ : unit,
    match read zf f with
    | Some data => call (write_file output_name "wb" (BytesData data))
    | None => Raise KeyError
    end in
  result (run h turn w) = inr () →
  writes (trace (run h turn w))
  = match read zf f with
    | Some data => [(output_name, "wb", BytesData data)]
    | None => []
    end.
Proof.
  intros output_name img_dir turn. subst turn. simpl.
  destruct (h bool (os_path_exists img_dir) w) as [[e|[]] w1]; simpl; [done|..].
  - destruct (read zf f) as [data|]; simpl; [|done].
    by destruct (h unit (write_file output_name "wb" (BytesData data)) w1)
      as [[e|[]] w2].
  - destruct (h unit (os_makedirs img_dir) w1) as [[e|[]] w2]; simpl; [done|].
    destruct (read zf f) as [data|]; simpl; [|done].
    by destruct (h unit (write_file output_name "wb" (BytesData data)) w2)
      as [[e|[]] w3].
Qed.

Lemma read_own (zf : archive) (e : entry) :
  NoDup (namelist zf) → e ∈ zf → read zf (e_name e) = Some (e_data e).
Proof.
  intros Hnd (before & after & ->)%list_elem_of_split.
  apply read_last. unfold namelist in Hnd.
  rewrite fmap_app, fmap_cons in Hnd.
  apply NoDup_app in Hnd as (_ & _ & Hnd). apply NoDup_cons in Hnd as [Hnd _].
  apply Forall_forall. intros e' He' Heq. apply Hnd. rewrite <- Heq.
  by apply list_elem_of_fmap_2.
Qed.

(** What the loop of [extract_pngs] writes, entry by entry. *)
Lemma png_writes_in (zf l : archive)
    (g : string → bytes → string * string * file_data) :
  Forall (λ e, read zf (e_name e) = Some (e_data e)) l →
  namelist l ≫= (λ f, if endswith (upper f) ".PNG"
                      then match read zf f with
                           | Some data => [g f data]
                           | None => []
                           end
                      else [])
  = (λ e, g (e_name e) (e_data e))
      <$> filter (λ e, endswith (upper (e_name e)) ".PNG" = true) l.
Proof.
  unfold namelist. induction 1 as [|e l' He _ IH]; [done|]. csimpl.
  rewrite IH. destruct (endswith (upper (e_name e)) ".PNG") eqn:E.
  - rewrite filter_cons_True by done. by rewrite He.
  - rewrite filter_cons_False by congruence. done.
Qed.

Lemma png_writes (zf : archive)
    (g : string → bytes → string * string * file_data) :
  NoDup (namelist zf) →
  namelist zf ≫= (λ f, if endswith (upper f) ".PNG"
                       then match read zf f with
                            | Some data => [g f data]
                            | None => []
                            end
                       else [])
  = (λ e, g (e_name e) (e_data e))
      <$> filter (λ e, endswith (upper (e_name e)) ".PNG" = true) zf.
Proof.
  intros Hnd. apply png_writes_in, Forall_forall.
  intros e He. by apply read_own.
Qed.

Lemma extract_pngs_writes_in {W} (h : handler W) (w w' : W)
    (os_path_join : string → string → string)
    (os_path_split : string → string * string)
    (file_name output_dir : string) (zf : archive) :
  h _ (ZipFile file_name) w = (inr zf, w') →
  NoDup (namelist zf) →
  result (run h (extract_pngs os_path_join os_path_split file_name output_dir)
            w) = inr () →
  writes (trace (run h (extract_pngs os_path_join os_path_split file_name
                          output_dir) w))
  = (λ e, (os_path_join output_dir (e_name e), "wb", BytesData (e_data e)))
      <$> filter (λ e, endswith (upper (e_name e)) ".PNG" = true) zf.
Proof.
  intros Hzip Hnd. unfold extract_pngs. rewrite run_bind.
  assert (run h (call (ZipFile file_name)) w
          = Outcome (inr zf) w' [Event (ZipFile file_name)]) as ->
    by (simpl; by rewrite Hzip).
  cbn [result world trace]. intros Hok. rewrite writes_app.
  change (writes [Event (ZipFile file_name)]) with
    (@nil (string * string * file_data)). rewrite app_nil_l.
  rewrite <- (png_writes zf (λ f data, (os_path_join output_dir f, "wb",
                                         BytesData data))) by done.
  apply for_each_writes; [|done].
  intros f w1 _. destruct (endswith (upper f) ".PNG"); [|done].
  apply extract_pngs_turn.
Qed.

(** On a run of [extract_pngs] that ends without an exception, the files
    written are the entries of the archive whose name ends in [.png] in any
    case, in the order of the archive: each under its own name joined to
    [output_dir], in binary mode, with its own bytes (the names of the
    archive being distinct). *)
Theorem extract_pngs_writes (W : Type) (h : handler W) (w w' : W)
    (os_path_join : string → string → string)
    (os_path_split : string → string * string)
    (file_name output_dir : string) (zf : archive) :
  h _ (ZipFile file_name) w = (inr zf, w') →
  NoDup (namelist zf) →
  result (run h (extract_pngs os_path_join os_path_split file_name output_dir)
            w) = inr () →
  writes (trace (run h (extract_pngs os_path_join os_path_split file_name
                          output_dir) w))
  = (λ e, (os_path_join output_dir (e_name e), "wb", BytesData (e_data e)))
      <$> filter (λ e, endswith (upper (e_name e)) ".PNG" = true) zf.
Proof. apply extract_pngs_writes_in. Qed.


Lemma yields_bind {A B} (h : handler unit) (m : prog A) (f : A → prog B)
    (a : A) (b : B) (ws1 ws2 : list (string * string * file_data)) :
  yields h m a ws1 → yields h (f a) b ws2 → yields h (m ≫= f) b (ws1 ++ ws2).
Proof.
  unfold yields. intros [Hm <-] [Hf <-]. rewrite run_bind, Hm.
  destruct (world (run h m ())). simpl. by rewrite writes_app.
Qed.

Lemma yields_step {A B} (h : handler unit) (m : prog A) (f : A → prog B)
    (a : A) (b : B) (ws : list (string * string * file_data)) :
  yields h m a [] → yields h (f a) b ws → yields h (m ≫= f) b ws.
Proof. intros Hm Hf. apply (yields_bind h m f a b [] ws Hm Hf). Qed.

Lemma library_get_html_soup (zf : archive) (soup : node) (sheet : stylesheet)
    (dirs : string → bool) (file_name : string) :
  Exists html_suffix (namelist zf) →
  yields (library zf soup sheet dirs) (get_html_soup file_name) soup [].
Proof.
  intros [f Hf]%html_file_name_some. unfold yields. simpl. rewrite Hf.
  apply html_file_name_elem, read_elem in Hf as [html_doc ->]. done.
Qed.




Lemma raises_step {A B} (h : handler unit) (m : prog A) (f : A → prog B)
    (a : A) (e : exn) :
  yields h m a [] → raises h (f a) e → raises h (m ≫= f) e.
Proof.
  unfold yields, raises. intros [Hm Hmw] [Hf Hfw]. rewrite run_bind, Hm.
  destruct (world (run h m ())). simpl. by rewrite writes_app, Hmw, Hfw.
Qed.

Lemma raises_here {A B} (h : handler unit) (m : prog A) (f : A → prog B)
    (e : exn) :
  raises h m e → raises h (m ≫= f) e.
Proof. unfold raises. intros [Hm Hmw]. by rewrite run_bind, Hm. Qed.

(** A document without a [style] element: [unpack_zip_to_html] makes the
    output directory first, then ends with an [AttributeError], raised where
    the contents of the missing element are taken; no file is written. *)
Theorem unpack_zip_to_html_no_style
    (os_path_join : string → string → string)
    (os_path_split : string → string * string) (prettify : node → string)
    (file_name output_dir : string) (zf : archive) (soup : node)
    (sheet : stylesheet) (dirs : string → bool) :
  let new_dir :=
    os_path_join output_dir (remove_zip (last_segment file_name EmptyString)) in
  let o := run (library zf soup sheet dirs)
               (unpack_zip_to_html os_path_join os_path_split prettify
                  file_name output_dir) () in
  Exists html_suffix (namelist zf) →
  find "style" soup = None →
  result o = inl AttributeError
  ∧ writes (trace o) = []
  ∧ head (trace o) = Some (Event (os_mkdir new_dir)).
Proof.
  intros new_dir o Hhtml Hstyle. subst o.
  set (lib := library zf soup sheet dirs).
  pose proof (library_get_html_soup zf soup sheet dirs file_name Hhtml)
    as Hsoup. fold lib in Hsoup.
  assert (raises lib (unpack_zip_to_html os_path_join os_path_split prettify
                        file_name output_dir) AttributeError) as [Hr Hw].
  { unfold unpack_zip_to_html. fold new_dir.
    apply (raises_step _ _ _ ()); [done|].
    apply (raises_step _ _ _ (snd <$> find "body" soup)).
    { unfold get_body_soup. by apply (yields_step _ _ _ soup). }
    apply raises_here. unfold get_tinycss_sheet, get_css_text.
    apply raises_here. apply (raises_step _ _ _ soup); [done|].
    rewrite Hstyle. done. }
  split_and!; [done..|].
  unfold unpack_zip_to_html. fold new_dir. by rewrite run_bind.
Qed.

(** A [style] element without contents: [unpack_zip_to_html] ends with an
    [IndexError], raised where the first of these contents is taken; the
    output directory has been made, no file is written. *)
Theorem unpack_zip_to_html_empty_style
    (os_path_join : string → string → string)
    (os_path_split : string → string * string) (prettify : node → string)
    (file_name output_dir : string) (zf : archive) (soup : node)
    (sheet : stylesheet) (dirs : string → bool) (style : node)
    (q : list nat) :
  let new_dir :=
    os_path_join output_dir (remove_zip (last_segment file_name EmptyString)) in
  let o := run (library zf soup sheet dirs)
               (unpack_zip_to_html os_path_join os_path_split prettify
                  file_name output_dir) () in
  Exists html_suffix (namelist zf) →
  find "style" soup = Some (q, style) →
  contents_of style = [] →
  result o = inl IndexError
  ∧ writes (trace o) = []
  ∧ head (trace o) = Some (Event (os_mkdir new_dir)).
Proof.
  intros new_dir o Hhtml Hstyle Hcss. subst o.
  set (lib := library zf soup sheet dirs).
  pose proof (library_get_html_soup zf soup sheet dirs file_name Hhtml)
    as Hsoup. fold lib in Hsoup.
  assert (raises lib (unpack_zip_to_html os_path_join os_path_split prettify
                        file_name output_dir) IndexError) as [Hr Hw].
  { unfold unpack_zip_to_html. fold new_dir.
    apply (raises_step _ _ _ ()); [done|].
    apply (raises_step _ _ _ (snd <$> find "body" soup)).
    { unfold get_body_soup. by apply (yields_step _ _ _ soup). }
    apply raises_here. unfold get_tinycss_sheet, get_css_text.
    apply raises_here. apply (raises_step _ _ _ soup); [done|].
    rewrite Hstyle. apply (raises_step _ _ _ style); [done|].
    by rewrite Hcss. }
  split_and!; [done..|].
  unfold unpack_zip_to_html. fold new_dir. by rewrite run_bind.
Qed.

(** A document without a [body]: [get_body_soup] returns [None], the
    stylesheet is read all the same, and [unpack_zip_to_html] ends with an
    [AttributeError] when the first pass is run on the [None]; no file is
    written. *)
Theorem unpack_zip_to_html_no_body
    (os_path_join : string → string → string)
    (os_path_split : string → string * string) (prettify : node → string)
    (file_name output_dir : string) (zf : archive) (soup : node)
    (sheet : stylesheet) (dirs : string → bool) (style : node)
    (q : list nat) :
  let o := run (library zf soup sheet dirs)
               (unpack_zip_to_html os_path_join os_path_split prettify
                  file_name output_dir) () in
  Exists html_suffix (namelist zf) →
  find "body" soup = None →
  find "style" soup = Some (q, style) →
  contents_of style ≠ [] →
  yields (library zf soup sheet dirs) (get_body_soup file_name) None []
  ∧ yields (library zf soup sheet dirs) (get_tinycss_sheet file_name) sheet []
  ∧ result o = inl AttributeError
  ∧ writes (trace o) = [].
Proof.
  intros o Hhtml Hbody Hstyle Hcss. subst o.
  set (lib := library zf soup sheet dirs).
  pose proof (library_get_html_soup zf soup sheet dirs file_name Hhtml)
    as Hsoup. fold lib in Hsoup.
  assert (yields lib (get_body_soup file_name) None []) as Hb.
  { unfold get_body_soup. apply (yields_step _ _ _ soup); [done|].
    by rewrite Hbody. }
  assert (yields lib (get_tinycss_sheet file_name) sheet []) as Hs.
  { unfold get_tinycss_sheet, get_css_text.
    destruct (contents_of style) as [|css_text rest] eqn:Hcont; [done|].
    apply (yields_step _ _ _ css_text); [|done].
    apply (yields_step _ _ _ soup); [done|]. rewrite Hstyle.
    apply (yields_step _ _ _ style); [done|]. by rewrite Hcont. }
  assert (raises lib (unpack_zip_to_html os_path_join os_path_split prettify
                        file_name output_dir) AttributeError) as [Hr Hw].
  { unfold unpack_zip_to_html.
    apply (raises_step _ _ _ ()); [done|].
    apply (raises_step _ _ _ None); [done|].
    by apply (raises_step _ _ _ sheet). }
  by split_and!.
Qed.

(** ** The further theorems at concrete inputs *)





Lemma last_segment_no_backslash_example :
  last_segment "docs/report.zip" EmptyString = "docs/report.zip".
Proof.
  apply (last_segment_no_backslash "docs/report.zip").
  apply (bool_decide_unpack _). vm_compute. exact I.
Defined.

Lemma output_directory_name_example :
  remove_zip (last_segment ("C:\docs" +:+ "\" +:+ "report" +:+ ".zip")
                EmptyString)
  = "report".
Proof.
  apply (output_directory_name "C:\docs" "report").
  - apply (bool_decide_unpack _). vm_compute. exact I.
  - apply (bool_decide_unpack _). vm_compute. exact I.
Defined.

Lemma extract_html_single_call_example :
  ∃ html_doc,
    run (serve [Entry "a.html" [Byte.x01]; Entry "fig.png" [Byte.x02]])
        (extract_html "doc.zip") ()
    = Outcome (inr html_doc) () [Event (ZipFile "doc.zip")].
Proof.
  apply (extract_html_single_call unit
           (serve [Entry "a.html" [Byte.x01]; Entry "fig.png" [Byte.x02]])
           () () "doc.zip"
           [Entry "a.html" [Byte.x01]; Entry "fig.png" [Byte.x02]]).
  reflexivity.
Defined.

Lemma extract_pngs_writes_example :
  writes (trace (run (serve [Entry "doc.html" [Byte.x01];
                             Entry "images/a.png" [Byte.x02];
                             Entry "images/b.PNG" [Byte.x03]])
                   (extract_pngs (λ a b, a +:+ "/" +:+ b)
                      (λ p, (p, EmptyString)) "doc.zip" "out") ()))
  = [("out/images/a.png", "wb", BytesData [Byte.x02]);
     ("out/images/b.PNG", "wb", BytesData [Byte.x03])].
Proof.
  apply (extract_pngs_writes unit
           (serve [Entry "doc.html" [Byte.x01];
                   Entry "images/a.png" [Byte.x02];
                   Entry "images/b.PNG" [Byte.x03]])
           () () (λ a b, a +:+ "/" +:+ b) (λ p, (p, EmptyString))
           "doc.zip" "out"
           [Entry "doc.html" [Byte.x01]; Entry "images/a.png" [Byte.x02];
            Entry "images/b.PNG" [Byte.x03]]).
  - reflexivity.
  - apply (bool_decide_unpack _). vm_compute. exact I.
  - vm_compute. reflexivity.
Defined.


Lemma unpack_zip_to_html_no_style_example :
  let zf := [Entry "doc.html" [Byte.x01]] in
  let soup := Tag "[document]" ∅ [Tag "html" ∅ [Tag "body" ∅ [Text "t"]]] in
  let o := run (library zf soup (Stylesheet []) (λ _, false))
               (unpack_zip_to_html (λ a b, a +:+ "/" +:+ b)
                  (λ p, (p, EmptyString)) decode "doc.zip" "out") () in
  result o = inl AttributeError
  ∧ writes (trace o) = []
  ∧ head (trace o) = Some (Event (os_mkdir "out/doc")).
Proof.
  intros zf soup.
  apply (unpack_zip_to_html_no_style (λ a b, a +:+ "/" +:+ b)
           (λ p, (p, EmptyString)) decode "doc.zip" "out" zf soup
           (Stylesheet []) (λ _, false)).
  - apply Exists_cons_hd. apply endswith_html. vm_compute. reflexivity.
  - reflexivity.
Defined.

Lemma unpack_zip_to_html_empty_style_example :
  let zf := [Entry "doc.html" [Byte.x01]] in
  let soup :=
    Tag "[document]" ∅
      [Tag "html" ∅ [Tag "head" ∅ [Tag "style" ∅ []];
                     Tag "body" ∅ [Text "t"]]] in
  let o := run (library zf soup (Stylesheet []) (λ _, false))
               (unpack_zip_to_html (λ a b, a +:+ "/" +:+ b)
                  (λ p, (p, EmptyString)) decode "doc.zip" "out") () in
  result o = inl IndexError
  ∧ writes (trace o) = []
  ∧ head (trace o) = Some (Event (os_mkdir "out/doc")).
Proof.
  intros zf soup.
  apply (unpack_zip_to_html_empty_style (λ a b, a +:+ "/" +:+ b)
           (λ p, (p, EmptyString)) decode "doc.zip" "out" zf soup
           (Stylesheet []) (λ _, false) (Tag "style" ∅ []) [0; 0; 0]).
  - apply Exists_cons_hd. apply endswith_html. vm_compute. reflexivity.
  - reflexivity.
  - reflexivity.
Defined.

Lemma unpack_zip_to_html_no_body_example :
  let zf := [Entry "doc.html" [Byte.x01]] in
  let soup :=
    Tag "[document]" ∅
      [Tag "html" ∅ [Tag "head" ∅ [Tag "style" ∅ [Text ".c1{}"]]]] in
  let lib := library zf soup (Stylesheet [Rule ".c1" []]) (λ _, false) in
  let o := run lib
               (unpack_zip_to_html (λ a b, a +:+ "/" +:+ b)
                  (λ p, (p, EmptyString)) decode "doc.zip" "out") () in
  yields lib (get_body_soup "doc.zip") None []
  ∧ yields lib (get_tinycss_sheet "doc.zip") (Stylesheet [Rule ".c1" []]) []
  ∧ result o = inl AttributeError
  ∧ writes (trace o) = [].
Proof.
  intros zf soup.
  apply (unpack_zip_to_html_no_body (λ a b, a +:+ "/" +:+ b)
           (λ p, (p, EmptyString)) decode "doc.zip" "out" zf soup
           (Stylesheet [Rule ".c1" []]) (λ _, false)
           (Tag "style" ∅ [Text ".c1{}"]) [0; 0; 0]).
  - apply Exists_cons_hd. apply endswith_html. vm_compute. reflexivity.
  - reflexivity.
  - reflexivity.
  - discriminate.
Defined.
